(** * Crossword generation as a constraint-satisfaction problem

    A shallow embedding of [src/generate.py] (class [CrosswordCreator]):
    node consistency, arc consistency (AC-3), the consistency checker, the
    search heuristics and the backtracking search, followed by the
    properties of the specification that were checked against it.

    Conventions of the embedding.
    - A Python [set] is the list of its elements in iteration order; such a
      list has no duplicates.  Python does not fix the iteration order of a
      set, so no theorem below depends on it unless it says so.
    - A Python [dict] is an association list in insertion order, with
      Python's update discipline (assigning to an existing key keeps its
      place, a new key goes last).
    - A Python exception is a value of [exn]; a computation returns
      [Ret v], raises ([Raise e]) or runs out of fuel ([OutOfFuel]), the
      latter standing for a loop or a recursion that has not finished
      within the given number of steps.
    - [self.domains] is threaded explicitly: a method that can write it
      returns the new domain map next to its result. *)

From Stdlib Require Import String Ascii.
From stdpp Require Import base decidable option list strings.

Open Scope string_scope.
Open Scope list_scope.

(** ** Python values and exceptions *)

(** Slots.  The class lives in [crossword.py], which [generate.py] imports. *)
Inductive Direction := ACROSS | DOWN.

(** Modelled from the spec: the [Variable] class of [crossword.py] (a slot:
    origin row [i], origin column [j], direction and length, compared
    structurally).  [Variable] is a command name of Rocq, hence [Var]. *)
Record Var := mkVar {
  var_i : nat;
  var_j : nat;
  var_direction : Direction;
  var_length : nat
}.

#[global] Instance Direction_eq_dec : EqDecision Direction.
Proof. solve_decision. Defined.

#[global] Instance Var_eq_dec : EqDecision Var.
Proof. solve_decision. Defined.

Definition word := string.

(** The exceptions the methods can raise, by the place that raises them. *)
Inductive exn :=
| KeyError_domains (v : Var)          (* self.domains[v], v not a key *)
| KeyError_overlaps (a b : Var)       (* crossword.overlaps[a, b], key absent *)
| KeyError_remove (v : Var)           (* set.remove(v), v not a member *)
| KeyError_assignment (v : Var)       (* assignment[v] or assignment.pop(v) *)
| TypeError_NoneType                  (* None[0], or iterating over None *)
| KeyError_arcDomains (w : word)      (* arcDomains[w], w not a key *)
| IndexError_string                   (* s[k] with k out of range *)
| IndexError_pop                      (* [].pop() *)
| ValueError_max.                     (* max() of an empty sequence *)

Inductive result (A : Type) :=
| Ret (a : A)
| Raise (e : exn)
| OutOfFuel.
Arguments Ret {A} a.
Arguments Raise {A} e.
Arguments OutOfFuel {A}.

Definition bind {A B : Type} (m : result A) (f : A → result B) : result B :=
  match m with
  | Ret a => f a
  | Raise e => Raise e
  | OutOfFuel => OutOfFuel
  end.

Notation "x <- m ; k" := (bind m (fun x => k))
  (at level 20, m at level 100, k at level 200, only parsing).
Notation "' p <- m ; k" := (bind m (fun x => match x with p => k end))
  (at level 20, p pattern, m at level 100, k at level 200, only parsing).

(** [for x in l: s = body x s], stopping at the first exception. *)
Fixpoint for_each {A S : Type} (l : list A) (body : A → S → result S) (s : S)
  : result S :=
  match l with
  | [] => Ret s
  | x :: l' => s' <- body x s ; for_each l' body s'
  end.

(** A list comprehension [[x for x in l if cond x]] whose condition can raise. *)
Fixpoint comprehension_if {A : Type} (cond : A → result bool) (l : list A)
  : result (list A) :=
  match l with
  | [] => Ret []
  | x :: l' =>
      b <- cond x ;
      r <- comprehension_if cond l' ;
      Ret (if b then x :: r else r)
  end.

(** *** Strings *)

(** [s[k]] for a non-negative index [k]. *)
Definition str_index (s : word) (k : nat) : result ascii :=
  match String.get k s with
  | Some c => Ret c
  | None => Raise IndexError_string
  end.

Definition len_str (s : word) : nat := String.length s.

(** *** Sets *)

Section pyset.
Context {A : Type} `{EqDecision A}.

(** [set(l)] *)
Definition set_of_list (l : list A) : list A := remove_dups l.
(** [s.union(t)] *)
Definition set_union (s t : list A) : list A := s ++ list_difference t s.
(** [s.difference(t)] *)
Definition set_difference (s t : list A) : list A := list_difference s t.
(** [s.intersection(t)] *)
Definition set_intersection (s t : list A) : list A := list_intersection s t.
(** [s.symmetric_difference(t)] *)
Definition set_symmetric_difference (s t : list A) : list A :=
  list_difference s t ++ list_difference t s.
(** [s.intersection_update(t)] narrows [s] in place and returns [None];
    the value of the call expression is that [None]. *)
Definition set_intersection_update (s t : list A) : option (list A) := None.
(** [s == t] for two sets *)
Definition set_eqb (s t : list A) : bool :=
  bool_decide (s ⊆ t) && bool_decide (t ⊆ s).
(** [l.remove(x)] on a list: drops the first occurrence. *)
Fixpoint list_remove (x : A) (l : list A) : list A :=
  match l with
  | [] => []
  | y :: l' => if decide (x = y) then l' else y :: list_remove x l'
  end.
(** [l.pop()] on a list: the last element. *)
Definition list_pop (l : list A) : result A :=
  match last l with
  | Some x => Ret x
  | None => Raise IndexError_pop
  end.
End pyset.

(** [s.remove(v)] on a set of slots *)
Definition set_remove (s : list Var) (v : Var) : result (list Var) :=
  if decide (v ∈ s) then Ret (filter (λ u, u ≠ v) s) else Raise (KeyError_remove v).

(** [max(l)] *)
Definition py_max (l : list nat) : result nat :=
  match l with
  | [] => Raise ValueError_max
  | x :: l' => Ret (foldr Nat.max x l')
  end.

(** Comparison of values of different types, as [revise] and [ac3] use it:
    an [int] and a [set] are never equal. *)
Inductive pyval :=
| PyInt (n : nat)
| PySet (s : list word).

Definition py_eq (a b : pyval) : bool :=
  match a, b with
  | PyInt m, PyInt n => bool_decide (m = n)
  | PySet s, PySet t => set_eqb s t
  | _, _ => false
  end.
Definition py_ne (a b : pyval) : bool := negb (py_eq a b).

(** *** Dictionaries *)

Section pydict.
Context {K V : Type} `{EqDecision K}.

Definition dict := list (K * V).

Definition keys (d : dict) : list K := d.*1.
Definition values (d : dict) : list V := d.*2.

Fixpoint dict_get (d : dict) (k : K) : option V :=
  match d with
  | [] => None
  | (k', v) :: d' => if decide (k = k') then Some v else dict_get d' k
  end.

(** [d[k] = v] *)
Fixpoint dict_set (d : dict) (k : K) (v : V) : dict :=
  match d with
  | [] => [(k, v)]
  | (k', v') :: d' =>
      if decide (k = k') then (k, v) :: d' else (k', v') :: dict_set d' k v
  end.

(** [d.pop(k)], the dictionary that is left; [None] when [k] is no key. *)
Fixpoint dict_pop (d : dict) (k : K) : option dict :=
  match d with
  | [] => None
  | (k', v') :: d' =>
      if decide (k = k') then Some d'
      else d'' ← dict_pop d' k; Some ((k', v') :: d'')
  end.
End pydict.
Arguments dict : clear implicits.

(** ** The puzzle model *)

(** Modelled from the spec: the [Crossword] class of [crossword.py], of which
    [generate.py] reads [variables], [words], [overlaps] and [neighbors].
    [overlaps (a, b)] is [None] when the key is absent, [Some None] when the
    two slots do not cross, and [Some (Some (ia, ib))] when character [ia]
    of [a] is character [ib] of [b].  [neighbors v] is the fresh set the
    method returns. *)
Record Crossword := mkCrossword {
  variables : list Var;
  words : list word;
  overlaps : Var * Var → option (option (nat * nat));
  neighbors : Var → list Var
}.

Definition Domains := dict Var (list word).
Definition Assignment := dict Var word.

(** ** The solver: class [CrosswordCreator] *)

(** [__init__]: every slot starts with a copy of the whole word pool. *)
Definition init (crossword : Crossword) : Domains :=
  map (λ var, (var, words crossword)) (variables crossword).

(** [self.domains[v]] *)
Definition domains_get (domains : Domains) (v : Var) : result (list word) :=
  match dict_get domains v with
  | Some d => Ret d
  | None => Raise (KeyError_domains v)
  end.

(** [assignment[v]] *)
Definition assignment_get (assignment : Assignment) (v : Var) : result word :=
  match dict_get assignment v with
  | Some w => Ret w
  | None => Raise (KeyError_assignment v)
  end.

(** [assignment.pop(v)] *)
Definition assignment_pop (assignment : Assignment) (v : Var) : result Assignment :=
  match dict_pop assignment v with
  | Some a => Ret a
  | None => Raise (KeyError_assignment v)
  end.

(** [o[0]] and [o[1]] for an overlap record [o], which may be [None]. *)
Definition item0 (o : option (nat * nat)) : result nat :=
  match o with
  | Some (a, _) => Ret a
  | None => Raise TypeError_NoneType
  end.
Definition item1 (o : option (nat * nat)) : result nat :=
  match o with
  | Some (_, b) => Ret b
  | None => Raise TypeError_NoneType
  end.

(** Truth value of [None] or a set, as [if knownVecinos:] tests it. *)
Definition truthy (o : option (list Var)) : bool :=
  match o with
  | Some (_ :: _) => true
  | _ => false
  end.

(** [set([dom for dom in list(domain) if len(dom)==var.length])] *)
Definition fitting (var : Var) (domain : list word) : list word :=
  set_of_list (filter (λ dom, len_str dom = var_length var) domain).

(** [enforce_node_consistency]: the loop runs over the items of
    [self.domains] and stores the filtered set under the same key. *)
Definition enforce_node_consistency (domains : Domains) : Domains :=
  fold_left
    (λ (doms : Domains) '(var, domain), dict_set doms var (fitting var domain))
    domains domains.

Section creator.
Context (crossword : Crossword).

(** [self.crossword.overlaps[a, b]] *)
Definition overlaps_get (a b : Var) : result (option (nat * nat)) :=
  match overlaps crossword (a, b) with
  | Some o => Ret o
  | None => Raise (KeyError_overlaps a b)
  end.

(** The words of [Dx] that agree with [domY] at the overlap, [domY]
    itself taken out: the body of the loop of [revise]. *)
Definition revise_body (x : Var) (xOverlap yOverlap : nat) (domains : Domains)
    (domY : word) (auxiliar : list word) : result (list word) :=
  Dx <- domains_get domains x ;
  res <- comprehension_if
           (λ domX,
              cx <- str_index domX xOverlap ;
              cy <- str_index domY yOverlap ;
              Ret (bool_decide (cx = cy)))
           Dx ;
  let res := if decide (domY ∈ res) then list_remove domY res else res in
  Ret (set_union auxiliar (set_difference (set_of_list res) auxiliar)).

(** [revise] *)
Definition revise (x y : Var) (domains : Domains) : result (bool * Domains) :=
  xOriginal <- domains_get domains x ;
  o <- overlaps_get y x ;
  yOverlap <- item0 o ;
  o <- overlaps_get y x ;
  xOverlap <- item1 o ;
  let auxiliar := [] in
  Dy <- domains_get domains y ;
  auxiliar <- for_each Dy (revise_body x xOverlap yOverlap domains) auxiliar ;
  let domains := dict_set domains x auxiliar in
  Dx <- domains_get domains x ;
  Ret (py_ne (PyInt (length xOriginal)) (PySet Dx), domains).

(** The initial worklist of [ac3]. *)
Definition initial_arcs : list (Var * Var) :=
  flat_map (λ var, map (λ vecino, (vecino, var)) (neighbors crossword var))
           (variables crossword).

(** What one turn of the [while] loop of [ac3] does with the arc [q] it
    has popped: it returns from [ac3] ([inl]) or goes on with a longer
    worklist ([inr]). *)
Definition ac3_body (q : Var * Var) (quee : list (Var * Var)) (domains : Domains)
  : result ((bool * Domains) + (list (Var * Var) * Domains)) :=
  '(revised, domains) <- revise q.1 q.2 domains ;
  if revised then
    Dq <- domains_get domains q.1 ;
    if py_eq (PySet Dq) (PyInt 0) then Ret (inl (false, domains))
    else
      let vecinos := neighbors crossword q.1 in
      vecinos <- set_remove vecinos q.2 ;
      Ret (inr (quee ++ map (λ vecino, (vecino, q.1)) vecinos, domains))
  else Ret (inr (quee, domains)).

Fixpoint ac3_loop (fuel : nat) (quee : list (Var * Var)) (domains : Domains)
  : result (bool * Domains) :=
  match quee with
  | [] => Ret (true, domains)
  | q :: quee =>
      match fuel with
      | 0 => OutOfFuel
      | S fuel =>
          r <- ac3_body q quee domains ;
          match r with
          | inl ret => Ret ret
          | inr (quee, domains) => ac3_loop fuel quee domains
          end
      end
  end.

(** [ac3]; the argument [arcs] is never read. *)
Definition ac3 (fuel : nat) (arcs : option (list (Var * Var))) (domains : Domains)
  : result (bool * Domains) :=
  ac3_loop fuel initial_arcs domains.

(** [consistent] *)
Definition consistent (assignment : Assignment) : result bool :=
  let consisten := true in
  let assignVec := set_of_list (keys assignment) in
  for_each assignment
    (λ '(var, word) consisten,
       if decide (var_length var = len_str word) then
         let vecinos :=
           set_intersection (set_of_list (neighbors crossword var)) assignVec in
         for_each vecinos
           (λ vecino consisten,
              overlap <- overlaps_get var vecino ;
              k0 <- item0 overlap ;
              c0 <- str_index word k0 ;
              other <- assignment_get assignment vecino ;
              k1 <- item1 overlap ;
              c1 <- str_index other k1 ;
              Ret (if decide (c0 ≠ c1) then false else consisten))
           consisten
       else
         (* [consistent=False]: binds another name, [consisten] is unchanged *)
         Ret consisten)
    consisten.

(** [assignment_complete] *)
Definition assignment_complete (assignment : Assignment) : result bool :=
  if decide (length (variables crossword) = length (keys assignment))
  then consistent assignment
  else Ret false.

(** [order_domain_values].  It returns a list, or [None] (the value of
    [list.sort()]) in the branch that scores the words. *)
Definition order_domain_values (var : Var) (assignment : Assignment)
    (domains : Domains) : result (option (list word) * Domains) :=
  domOriginal <- domains_get domains var ;
  let vecinos := neighbors crossword var in
  let knownVecinos :=
    set_intersection_update (set_of_list (keys assignment)) vecinos in
  Dvar <- domains_get domains var ;
  let arcDomains : dict word nat := map (λ dom, (dom, 0)) Dvar in
  if truthy knownVecinos then
    '(arcDomains, domains) <-
       for_each (default [] knownVecinos)
         (λ vecino '(arcDomains, domains),
            let domains := dict_set domains var domOriginal in
            '(_, domains) <- revise var vecino domains ;
            Dvar <- domains_get domains var ;
            arcDomains <-
              for_each Dvar
                (λ dom (arcDomains : dict word nat),
                   if decide (dom ∈ domOriginal) then
                     match dict_get arcDomains dom with
                     | Some n => Ret (dict_set arcDomains dom (n + 1))
                     | None => Raise (KeyError_arcDomains dom)
                     end
                   else Ret arcDomains)
                arcDomains ;
            Ret (arcDomains, domains))
         (arcDomains, domains) ;
    Ret (None, domains)
  else Ret (Some domOriginal, domains).

(** A dict comprehension [{k: v for k, v in d.items() if v == max(d.values())}] *)
Definition keep_max (d : dict Var nat) : result (dict Var nat) :=
  comprehension_if
    (λ '(key, item), m <- py_max (values d) ; Ret (bool_decide (item = m)))
    d.

(** [select_unassigned_variable] *)
Definition select_unassigned_variable (assignment : Assignment)
    (domains : Domains) : result Var :=
  let usedVariables := keys assignment in
  let unusedVar :=
    set_symmetric_difference (variables crossword) (set_of_list usedVariables) in
  maxdatosDict <-
    for_each unusedVar
      (λ x (d : dict Var nat), Dx <- domains_get domains x ; Ret (dict_set d x (length Dx)))
      [] ;
  let degreeDatosDict : dict Var nat :=
    fold_left (λ d x, dict_set d x (length (neighbors crossword x))) unusedVar [] in
  maxDict <- keep_max maxdatosDict ;
  degreeDict <- keep_max degreeDatosDict ;
  if decide (1 < length maxdatosDict) then
    if decide (1 < length degreeDict) then list_pop (keys degreeDict)
    else list_pop (keys degreeDict)
  else list_pop (keys maxDict).

(** The [for value in ...] loop of [backtrack]; [rec] is the recursive call. *)
Fixpoint backtrack_for
    (rec : Assignment → Domains → result (option Assignment * Assignment * Domains))
    (variable : Var) (vals : list word) (assignment : Assignment)
    (domains : Domains) : result (option Assignment * Assignment * Domains) :=
  match vals with
  | [] => Ret (None, assignment, domains)
  | value :: vals =>
      let assignment := dict_set assignment variable value in
      ok <- consistent assignment ;
      if ok then
        '(result, assignment, domains) <- rec assignment domains ;
        match result with
        | Some _ => Ret (result, assignment, domains)
        | None => Ret (result, assignment, domains)
        end
      else
        assignment <- assignment_pop assignment variable ;
        backtrack_for rec variable vals assignment domains
  end.

(** [backtrack].  The dictionary [assignment] is updated in place and, on
    success, returned itself: the result is the value returned ([None] or
    the contents of the dictionary), the contents of the dictionary when
    the call returns, and the domain map. *)
Fixpoint backtrack (fuel : nat) (assignment : Assignment) (domains : Domains)
  : result (option Assignment * Assignment * Domains) :=
  match fuel with
  | 0 => OutOfFuel
  | S fuel =>
      let usedVariables := keys assignment in
      complete <- assignment_complete assignment ;
      if complete then Ret (Some assignment, assignment, domains)
      else
        variable <- select_unassigned_variable assignment domains ;
        '(vals, domains) <- order_domain_values variable assignment domains ;
        match vals with
        | None => Raise TypeError_NoneType
        | Some vals =>
            backtrack_for (backtrack fuel) variable vals assignment domains
        end
  end.

(** [solve], from the state [domains] of the solver. *)
Definition solve (fuel : nat) (domains : Domains)
  : result (option Assignment * Assignment * Domains) :=
  let domains := enforce_node_consistency domains in
  '(_, domains) <- ac3 fuel None domains ;
  backtrack fuel [] domains.
End creator.

(** [CrosswordCreator(crossword).solve()] *)
Definition create_and_solve (crossword : Crossword) (fuel : nat)
  : result (option Assignment * Assignment * Domains) :=
  solve crossword fuel (init crossword).

(** ** Puzzles from grid geometry *)

(** Modelled from the spec: the cells of a slot and the overlap relation of
    [crossword.py] ("for a pair of slots whose cell runs cross at a cell, an
    overlap record (indexInA, indexInB)"; "a slot's neighbors are all other
    slots with which it has an overlap record"). *)
Definition cells (v : Var) : list (nat * nat) :=
  map (λ k, match var_direction v with
            | DOWN => (var_i v + k, var_j v)
            | ACROSS => (var_i v, var_j v + k)
            end)
      (seq 0 (var_length v)).

Fixpoint index_of {A : Type} `{EqDecision A} (x : A) (l : list A) : option nat :=
  match l with
  | [] => None
  | y :: l' => if decide (x = y) then Some 0 else S <$> index_of x l'
  end.

Definition crossing (a b : Var) : option (nat * nat) :=
  match list_intersection (cells a) (cells b) with
  | [] => None
  | c :: _ =>
      match index_of c (cells a), index_of c (cells b) with
      | Some ia, Some ib => Some (ia, ib)
      | _, _ => None
      end
  end.

Definition grid_crossword (vars : list Var) (pool : list word) : Crossword :=
  {| variables := vars;
     words := pool;
     overlaps := λ '(a, b),
       if decide (a ≠ b ∧ a ∈ vars ∧ b ∈ vars) then Some (crossing a b) else None;
     neighbors := λ v, filter (λ u, u ≠ v ∧ is_Some (crossing u v)) vars |}.

(** ** Notions used by the statements *)

(** The domain map [after] is pointwise contained in [before]. *)
Definition domains_shrink (after before : Domains) : Prop :=
  ∀ s D', dict_get after s = Some D' →
    ∃ D, dict_get before s = Some D ∧ D' ⊆ D.

(** Every word of [D] has a character at index [k]. *)
Definition in_range (k : nat) (D : list word) : Prop :=
  ∀ w, w ∈ D → k < len_str w.

(** The characters of [w] at [kw] and of [v] at [kv] are the same one. *)
Definition agree (w : word) (kw : nat) (v : word) (kv : nat) : Prop :=
  ∃ c, String.get kw w = Some c ∧ String.get kv v = Some c.

(** Node consistency of a domain map. *)
Definition node_consistent (domains : Domains) : Prop :=
  ∀ s D w, dict_get domains s = Some D → w ∈ D → len_str w = var_length s.

(** Every slot of the puzzle has a domain. *)
Definition covers (crossword : Crossword) (domains : Domains) : Prop :=
  ∀ v, v ∈ variables crossword → is_Some (dict_get domains v).

(** A partial assignment built by the search: distinct keys, all of them
    slots of the puzzle, each with a word of its current domain. *)
Definition drawn_from (crossword : Crossword) (domains : Domains)
    (assignment : Assignment) : Prop :=
  NoDup (keys assignment) ∧
  (∀ v, v ∈ keys assignment → v ∈ variables crossword) ∧
  (∀ v w, dict_get assignment v = Some w →
     ∃ D, dict_get domains v = Some D ∧ w ∈ D).

(** The loop states of [ac3] started on [domains0]: the worklist and the
    domain map at the head of the [while] loop. *)
Inductive ac3_visits (crossword : Crossword) (domains0 : Domains)
  : list (Var * Var) → Domains → Prop :=
| visits_start :
    ac3_visits crossword domains0 (initial_arcs crossword) domains0
| visits_next q quee domains quee' domains' :
    ac3_visits crossword domains0 (q :: quee) domains →
    ac3_body crossword q quee domains = Ret (inr (quee', domains')) →
    ac3_visits crossword domains0 quee' domains'.

(** The two ways in which the lookup [self.crossword.overlaps[y, x][k]] of
    [revise] fails: the key is absent, or the record is [None]. *)
Definition overlap_failure (e : exn) : Prop :=
  match e with
  | KeyError_overlaps _ _ | TypeError_NoneType => True
  | _ => False
  end.

(** The puzzle model records an overlap for every pair of neighbouring
    slots, and the neighbours of a slot are slots of the puzzle. *)
Definition neighbors_overlap (crossword : Crossword) : Prop :=
  ∀ a b, a ∈ variables crossword → b ∈ neighbors crossword a →
    b ∈ variables crossword ∧
    ∃ ka kb, overlaps crossword (a, b) = Some (Some (ka, kb)).

(** [neighbors_overlap], as a check that can be run on a given puzzle. *)
Definition neighbors_overlapb (crossword : Crossword) : bool :=
  forallb
    (λ a, forallb
            (λ b, bool_decide (b ∈ variables crossword) &&
                  match overlaps crossword (a, b) with
                  | Some (Some _) => true
                  | _ => false
                  end)
            (neighbors crossword a))
    (variables crossword).

(** A puzzle in which the worklist of [ac3] never runs dry: every overlap
    between a slot and a neighbour is recorded in both directions with
    indices inside the slots, and every slot has a neighbour besides any
    given one. *)
Definition every_slot_crosses_two (crossword : Crossword) : Prop :=
  ∀ a b, a ∈ variables crossword → b ∈ neighbors crossword a →
    b ∈ variables crossword ∧ a ∈ neighbors crossword b ∧
    (∃ c, c ∈ neighbors crossword a ∧ c ≠ b) ∧
    ∃ ka kb, overlaps crossword (a, b) = Some (Some (ka, kb)) ∧
             ka < var_length a ∧ kb < var_length b.

(** [every_slot_crosses_two], as a check that can be run. *)
Definition every_slot_crosses_twob (crossword : Crossword) : bool :=
  forallb
    (λ a, forallb
            (λ b, bool_decide (b ∈ variables crossword) &&
                  bool_decide (a ∈ neighbors crossword b) &&
                  bool_decide (filter (λ c, c ≠ b) (neighbors crossword a) ≠ []) &&
                  match overlaps crossword (a, b) with
                  | Some (Some (ka, kb)) =>
                      bool_decide (ka < var_length a) && bool_decide (kb < var_length b)
                  | _ => false
                  end)
            (neighbors crossword a))
    (variables crossword).

(** ** Example puzzles *)

(** Two crossing slots of length 3: character 1 of the across slot is
    character 0 of the down slot. *)
Definition slot_A : Var := mkVar 0 0 ACROSS 3.
Definition slot_B : Var := mkVar 0 1 DOWN 3.
Definition two_slots : Crossword :=
  grid_crossword [slot_A; slot_B] ["CAT"; "CAR"; "TEA"; "ART"].

(** Two slots of length 3 that share their first cell. *)
Definition corner_x : Var := mkVar 0 0 ACROSS 3.
Definition corner_y : Var := mkVar 0 0 DOWN 3.
Definition corner : Crossword :=
  grid_crossword [corner_x; corner_y] ["CAT"; "DOG"].

(** An across slot of length 2 and a down slot of length 3 that share
    their first cell. *)
Definition short_x : Var := mkVar 0 0 ACROSS 2.
Definition long_y : Var := mkVar 0 0 DOWN 3.
Definition mixed_corner : Crossword :=
  grid_crossword [short_x; long_y] ["ab"; "cde"].

(** An across slot of length 3 crossed at its two ends by down slots of
    length 2. *)
Definition bridge_x : Var := mkVar 0 0 ACROSS 3.
Definition bridge_y : Var := mkVar 0 0 DOWN 2.
Definition bridge_z : Var := mkVar 0 2 DOWN 2.
Definition bridge : Crossword :=
  grid_crossword [bridge_x; bridge_y; bridge_z] ["aba"; "cbc"; "cx"].

(** An across slot of length 4 crossed by a down slot of length 3 and a
    down slot of length 4; the pool has one word of length 3 and two of
    length 4. *)
Definition fork_y : Var := mkVar 0 0 ACROSS 4.
Definition fork_x : Var := mkVar 0 0 DOWN 3.
Definition fork_z : Var := mkVar 0 2 DOWN 4.
Definition fork : Crossword :=
  grid_crossword [fork_x; fork_y; fork_z] ["sun"; "star"; "area"].

(** A fully open 2 x 2 grid: two across and two down slots, each crossing
    the two of the other direction. *)
Definition square_a1 : Var := mkVar 0 0 ACROSS 2.
Definition square_a2 : Var := mkVar 1 0 ACROSS 2.
Definition square_d1 : Var := mkVar 0 0 DOWN 2.
Definition square_d2 : Var := mkVar 0 1 DOWN 2.
Definition square : Crossword :=
  grid_crossword [square_a1; square_a2; square_d1; square_d2]
                 ["AT"; "TO"; "AN"; "NO"].

(** The puzzle [crossword] with its slots enumerated in the order [vars]. *)
Definition enumerated (crossword : Crossword) (vars : list Var) : Crossword :=
  grid_crossword vars (words crossword).

(** ** A well-formed puzzle model *)

(** What the solver takes for granted of the puzzle model: the slots are
    distinct; the neighbours of a slot are other slots of the puzzle, and
    the relation is symmetric; the overlap of a slot and a neighbour is
    recorded in both directions, the one record the mirror image of the
    other, with each index inside its slot. *)
Definition well_formed (crossword : Crossword) : Prop :=
  NoDup (variables crossword) ∧
  ∀ a b, a ∈ variables crossword → b ∈ neighbors crossword a →
    b ∈ variables crossword ∧ b ≠ a ∧ a ∈ neighbors crossword b ∧
    ∃ ka kb, overlaps crossword (a, b) = Some (Some (ka, kb)) ∧
             overlaps crossword (b, a) = Some (Some (kb, ka)) ∧
             ka < var_length a ∧ kb < var_length b.

(** [well_formed], as a check that can be run on a given puzzle. *)
Definition well_formedb (crossword : Crossword) : bool :=
  bool_decide (NoDup (variables crossword)) &&
  forallb
    (λ a, forallb
            (λ b, bool_decide (b ∈ variables crossword) &&
                  bool_decide (b ≠ a) &&
                  bool_decide (a ∈ neighbors crossword b) &&
                  match overlaps crossword (a, b) with
                  | Some (Some (ka, kb)) =>
                      bool_decide (overlaps crossword (b, a) = Some (Some (kb, ka))) &&
                      bool_decide (ka < var_length a) &&
                      bool_decide (kb < var_length b)
                  | _ => false
                  end)
            (neighbors crossword a))
    (variables crossword).

(** Every word of the assignment has the length of its slot. *)
Definition words_fit (assignment : Assignment) : Prop :=
  Forall (λ '(var, wd), len_str wd = var_length var) assignment.

(** Every domain of the map is a set: no word twice. *)
Definition domains_are_sets (domains : Domains) : Prop :=
  ∀ s D, dict_get domains s = Some D → NoDup D.

(** The slot [x] is arc consistent with the slot [y], in the sense of
    [revise]: every word of [x] agrees at the overlap with some other word
    of [y]. *)
Definition arc_consistent (crossword : Crossword) (domains : Domains) (x y : Var)
  : Prop :=
  ∀ Dx Dy ky kx w,
    dict_get domains x = Some Dx → dict_get domains y = Some Dy →
    overlaps crossword (y, x) = Some (Some (ky, kx)) →
    w ∈ Dx → ∃ v, v ∈ Dy ∧ v ≠ w ∧ agree w kx v ky.

(** The largest number of neighbours of a slot. *)
Definition max_degree (crossword : Crossword) : nat :=
  foldr Nat.max 0 (map (λ v, length (neighbors crossword v)) (variables crossword)).

(** A ranking of the arcs under which every arc that [ac3] puts on the
    worklist after revising [(x, y)] ranks below [(x, y)].  The puzzle
    [bridge], a chain of three slots, has one. *)
Definition ranked (crossword : Crossword) (rank : Var → Var → nat) : Prop :=
  ∀ x y z, y ∈ variables crossword → x ∈ neighbors crossword y →
    z ∈ neighbors crossword x → z ≠ y → rank z x < rank x y.

(** [ranked], as a check that can be run. *)
Definition rankedb (crossword : Crossword) (rank : Var → Var → nat) : bool :=
  forallb
    (λ y, forallb
            (λ x, forallb
                    (λ z, bool_decide (z = y) || bool_decide (rank z x < rank x y))
                    (neighbors crossword x))
            (neighbors crossword y))
    (variables crossword).

(** The cost [ac3] is charged for the arcs of a worklist. *)
Definition worklist_cost (crossword : Crossword) (rank : Var → Var → nat)
    (quee : list (Var * Var)) : nat :=
  sum_list_with (λ '(x, y), S (max_degree crossword) ^ rank x y) quee.

(** The invariant of the worklist loop of [ac3]: every arc between a slot
    and a neighbour is still on the worklist or is arc consistent. *)
Definition pending_or_consistent (crossword : Crossword)
    (quee : list (Var * Var)) (domains : Domains) : Prop :=
  ∀ x y, y ∈ variables crossword → x ∈ neighbors crossword y →
    (x, y) ∈ quee ∨ arc_consistent crossword domains x y.

(** ** Rendering: [letter_grid] *)

(** The two-dimensional array of [letter_grid]: rows of cells, a cell
    holding a character or [None]. *)
Abbreviation Letters := (list (list (option ascii))).

(** [[[None for _ in range(width)] for _ in range(height)]] *)
Definition blank_letters (height width : nat) : Letters :=
  replicate height (replicate width None).

(** [letters[i][j]]; [None] stands for the [IndexError] of an index out of
    range. *)
Definition letters_get (letters : Letters) (i j : nat) : option (option ascii) :=
  row ← letters !! i; row !! j.

(** [letters[i][j] = c]; [None] stands for the [IndexError]. *)
Definition letters_set (letters : Letters) (i j : nat) (c : ascii) : option Letters :=
  row ← letters !! i;
  if decide (j < length row) then Some (<[i := <[j := Some c]> row]> letters)
  else None.

(** The cell of the [k]-th character of a word in the slot [variable]. *)
Definition cell_of (variable : Var) (k : nat) : nat * nat :=
  (var_i variable + (if decide (var_direction variable = DOWN) then k else 0),
   var_j variable + (if decide (var_direction variable = ACROSS) then k else 0)).

(** [for x in l: s = body x s] for a body that can fail. *)
Fixpoint for_each_opt {A S : Type} (l : list A) (body : A → S → option S) (s : S)
  : option S :=
  match l with
  | [] => Some s
  | x :: l' => s' ← body x s; for_each_opt l' body s'
  end.

(** The body of the inner loop of [letter_grid]:
    [i = ...; j = ...; letters[i][j] = word[k]]. *)
Definition write_letter (write : Var * word * nat) (letters : Letters)
  : option Letters :=
  let '(variable, wd, k) := write in
  let '(i, j) := cell_of variable k in
  c ← String.get k wd;
  letters_set letters i j c.

(** The inner loop of [letter_grid], [for k in range(len(word))]. *)
Definition write_word (variable : Var) (wd : word) (letters : Letters)
  : option Letters :=
  for_each_opt (seq 0 (len_str wd))
    (λ k letters, write_letter (variable, wd, k) letters)
    letters.

(** [letter_grid]; [height] and [width] are [self.crossword.height] and
    [self.crossword.width]. *)
Definition letter_grid (height width : nat) (assignment : Assignment)
  : option Letters :=
  let letters := blank_letters height width in
  for_each_opt assignment
    (λ '(variable, wd) letters, write_word variable wd letters)
    letters.

(** The words of the assignment agree wherever two of them are written to
    the same cell. *)
Definition cells_agree (assignment : Assignment) : Prop :=
  ∀ v wd k c v' wd' k' c',
    (v, wd) ∈ assignment → (v', wd') ∈ assignment →
    String.get k wd = Some c → String.get k' wd' = Some c' →
    cell_of v k = cell_of v' k' → c = c'.

(** Every cell a word of the assignment is written to lies inside a grid
    of the given size. *)
Definition fits_grid (height width : nat) (assignment : Assignment) : Prop :=
  ∀ v wd k, (v, wd) ∈ assignment → k < len_str wd →
    (cell_of v k).1 < height ∧ (cell_of v k).2 < width.

(** The assignments [letters[i][j] = word[k]] that [letter_grid] makes, in
    the order in which it makes them: the slot, its word and the index. *)
Definition letter_writes (assignment : Assignment) : list (Var * word * nat) :=
  flat_map (λ '(variable, wd), map (λ k, (variable, wd, k)) (seq 0 (len_str wd)))
           assignment.

(** A grid of [height] rows of [width] cells. *)
Definition has_shape (height width : nat) (letters : Letters) : Prop :=
  length letters = height ∧ Forall (λ row, length row = width) letters.

(** * Properties *)

(** ** Dictionaries and sets *)

Section pydict_facts.
Context {K V : Type} `{EqDecision K}.
Implicit Types (d : dict K V) (k : K) (v : V).

Lemma dict_get_set_eq d k v : dict_get (dict_set d k v) k = Some v.
Proof.
  induction d as [|[k' v'] d IH]; simpl.
  - by rewrite decide_True.
  - destruct (decide (k = k')) as [->|Hne]; simpl.
    + by rewrite decide_True.
    + by rewrite decide_False.
Qed.

Lemma dict_get_set_ne d k k' v :
  k ≠ k' → dict_get (dict_set d k v) k' = dict_get d k'.
Proof.
  intros Hne. induction d as [|[k0 v0] d IH]; simpl.
  - by rewrite decide_False.
  - destruct (decide (k = k0)) as [->|Hk]; simpl.
    + by rewrite !decide_False.
    + by rewrite IH.
Qed.

Lemma dict_get_set d k k' v :
  dict_get (dict_set d k v) k' = if decide (k = k') then Some v else dict_get d k'.
Proof.
  destruct (decide (k = k')) as [->|Hne];
    [apply dict_get_set_eq | by apply dict_get_set_ne].
Qed.

Lemma dict_get_Some_elem d k v : dict_get d k = Some v → (k, v) ∈ d.
Proof.
  induction d as [|[k' v'] d IH]; simpl; [done|].
  destruct (decide (k = k')) as [->|Hne].
  - intros [= ->]. apply elem_of_cons; by left.
  - intros Hd. apply elem_of_cons; right; auto.
Qed.

Lemma dict_get_Some_key d k v : dict_get d k = Some v → k ∈ keys d.
Proof.
  intros Hd. apply dict_get_Some_elem in Hd.
  apply list_elem_of_fmap. by exists (k, v).
Qed.

Lemma dict_get_None d k : dict_get d k = None ↔ k ∉ keys d.
Proof.
  induction d as [|[k' v'] d IH]; simpl.
  - split; [intros _; apply not_elem_of_nil|done].
  - rewrite not_elem_of_cons. destruct (decide (k = k')) as [->|Hne]; simpl.
    + split; [done|]. by intros [? _].
    + rewrite IH. tauto.
Qed.

Lemma dict_get_is_Some d k : is_Some (dict_get d k) ↔ k ∈ keys d.
Proof.
  destruct (dict_get d k) as [v|] eqn:Hd.
  - split; [intros _; by eapply dict_get_Some_key|by eauto].
  - apply dict_get_None in Hd. split; [by intros [? [=]]|done].
Qed.

Lemma keys_dict_set_in d k v : k ∈ keys d → keys (dict_set d k v) = keys d.
Proof.
  induction d as [|[k' v'] d IH]; simpl.
  - intros Hin. by apply elem_of_nil in Hin.
  - intros Hin. destruct (decide (k = k')) as [->|Hne]; simpl; [done|].
    f_equal. apply IH. apply elem_of_cons in Hin as [?|?]; [done|done].
Qed.

Lemma dict_set_fresh d k v : k ∉ keys d → dict_set d k v = d ++ [(k, v)].
Proof.
  induction d as [|[k' v'] d IH]; simpl; [done|].
  rewrite not_elem_of_cons. intros [Hne Hnin].
  rewrite decide_False by done. by rewrite IH.
Qed.

Lemma keys_dict_set d k v : keys (dict_set d k v) ≡ₚ
  if decide (k ∈ keys d) then keys d else k :: keys d.
Proof.
  destruct (decide (k ∈ keys d)) as [Hin|Hnin].
  - by rewrite keys_dict_set_in.
  - rewrite dict_set_fresh by done. unfold keys. rewrite fmap_app. simpl.
    by rewrite Permutation_app_comm.
Qed.

Lemma elem_of_keys_dict_set d k v k' :
  k' ∈ keys (dict_set d k v) ↔ k' = k ∨ k' ∈ keys d.
Proof.
  rewrite keys_dict_set. case_decide; [|by rewrite elem_of_cons].
  split; [by right|]. by intros [->|?].
Qed.

Lemma NoDup_keys_dict_set d k v : NoDup (keys d) → NoDup (keys (dict_set d k v)).
Proof.
  intros Hnd. rewrite keys_dict_set. case_decide; [done|].
  by apply NoDup_cons.
Qed.

Lemma dict_pop_fresh d k v : k ∉ keys d → dict_pop (dict_set d k v) k = Some d.
Proof.
  induction d as [|[k' v'] d IH]; simpl.
  - intros _. by rewrite decide_True.
  - rewrite not_elem_of_cons. intros [Hne Hnin].
    rewrite decide_False by done. simpl. rewrite decide_False by done.
    by rewrite IH.
Qed.
End pydict_facts.

Section pyset_facts.
Context {A : Type} `{EqDecision A}.
Implicit Types (s t : list A) (x : A).

Lemma elem_of_set_of_list (l : list A) x : x ∈ set_of_list l ↔ x ∈ l.
Proof. apply elem_of_remove_dups. Qed.

Lemma elem_of_set_union s t x : x ∈ set_union s t ↔ x ∈ s ∨ x ∈ t.
Proof.
  unfold set_union. rewrite elem_of_app, list_elem_of_difference.
  destruct (decide (x ∈ s)); tauto.
Qed.

Lemma elem_of_set_difference s t x : x ∈ set_difference s t ↔ x ∈ s ∧ x ∉ t.
Proof. apply list_elem_of_difference. Qed.

Lemma elem_of_set_intersection s t x : x ∈ set_intersection s t ↔ x ∈ s ∧ x ∈ t.
Proof. apply list_elem_of_intersection. Qed.

Lemma elem_of_set_symmetric_difference s t x :
  x ∈ set_symmetric_difference s t ↔ (x ∈ s ∧ x ∉ t) ∨ (x ∈ t ∧ x ∉ s).
Proof.
  unfold set_symmetric_difference.
  by rewrite elem_of_app, !list_elem_of_difference.
Qed.

Lemma elem_of_list_remove (l : list A) x y :
  NoDup l → y ∈ list_remove x l ↔ y ∈ l ∧ y ≠ x.
Proof.
  induction l as [|z l IH]; simpl.
  - intros _. split; [by intros ?%elem_of_nil|by intros [?%elem_of_nil _]].
  - intros [Hz Hnd]%NoDup_cons. destruct (decide (x = z)) as [->|Hne].
    + rewrite elem_of_cons. split.
      * intros Hy. split; [by right|]. by intros ->.
      * by intros [[->|?] ?].
    + rewrite !elem_of_cons, IH by done. split.
      * intros [->|[? ?]]; [split; [by left|done]|split; [by right|done]].
      * intros [[->|?] ?]; [by left|by right].
Qed.

Lemma list_pop_elem (l : list A) x : list_pop l = Ret x → x ∈ l.
Proof.
  unfold list_pop. destruct (last l) as [y|] eqn:Hl; [|done].
  intros [= ->]. apply last_Some in Hl as [l' ->].
  apply elem_of_app; right. apply elem_of_cons; by left.
Qed.
End pyset_facts.


(** ** Loops and strings *)

Lemma bind_Ret_inv {A B : Type} (m : result A) (f : A → result B) (b : B) :
  bind m f = Ret b → ∃ a, m = Ret a ∧ f a = Ret b.
Proof. destruct m; simpl; [eauto|done|done]. Qed.

Lemma str_index_lt (s : word) (k : nat) :
  k < len_str s → ∃ c, String.get k s = Some c.
Proof.
  unfold len_str. revert k. induction s as [|a s IH]; simpl; intros k Hk; [lia|].
  destruct k as [|k]; [by eauto|]. apply IH. lia.
Qed.

Lemma comprehension_if_filter {A : Type} (cond : A → result bool)
    (P : A → Prop) `{∀ x, Decision (P x)} (l : list A) :
  (∀ x, x ∈ l → cond x = Ret (bool_decide (P x))) →
  comprehension_if cond l = Ret (filter P l).
Proof.
  induction l as [|x l IH]; intros Hc; simpl; [done|].
  rewrite Hc by (apply elem_of_cons; by left). simpl.
  rewrite IH by (intros y Hy; apply Hc, elem_of_cons; by right). simpl.
  rewrite filter_cons. unfold bool_decide, decide. by destruct (H x).
Qed.

Lemma comprehension_if_sublist {A : Type} (cond : A → result bool) (l r : list A) :
  comprehension_if cond l = Ret r → r `sublist_of` l.
Proof.
  revert r. induction l as [|x l IH]; simpl; intros r.
  - intros [= <-]. constructor.
  - intros (b & _ & (r' & Hr' & Hr)%bind_Ret_inv)%bind_Ret_inv.
    injection Hr as <-. specialize (IH _ Hr').
    destruct b; by constructor.
Qed.

(** ** [revise] *)

Lemma elem_of_list_remove_1 {A : Type} `{EqDecision A} (l : list A) (x y : A) :
  y ∈ list_remove x l → y ∈ l.
Proof.
  induction l as [|z l IH]; simpl; [done|].
  destruct (decide (x = z)) as [->|Hne]; rewrite !elem_of_cons; [by right|].
  intros [->|?]; [by left|right; auto].
Qed.

Lemma NoDup_set_union {A : Type} `{EqDecision A} (s t : list A) :
  NoDup s → NoDup t → NoDup (set_union s t).
Proof.
  intros Hs Ht. apply NoDup_app. split_and!; [done| |by apply NoDup_list_difference].
  intros x Hx. rewrite list_elem_of_difference. tauto.
Qed.

Lemma py_ne_int_set (n : nat) (s : list word) : py_ne (PyInt n) (PySet s) = true.
Proof. reflexivity. Qed.

Lemma py_eq_set_int (s : list word) (n : nat) : py_eq (PySet s) (PyInt n) = false.
Proof. reflexivity. Qed.

Section revise_facts.
Context (crossword : Crossword).
Implicit Types (x y : Var) (domains : Domains) (w v : word).

(** Whatever it returns, one turn of the loop only adds words of
    [domains[x]] to [auxiliar]. *)
Lemma revise_body_subset x kx ky domains Dx domY auxiliar auxiliar' :
  dict_get domains x = Some Dx →
  revise_body x kx ky domains domY auxiliar = Ret auxiliar' →
  (NoDup auxiliar → NoDup auxiliar') ∧
  ∀ w, w ∈ auxiliar' → w ∈ auxiliar ∨ w ∈ Dx.
Proof.
  intros HDx. unfold revise_body, domains_get. rewrite HDx. simpl.
  intros (res & Hres%comprehension_if_sublist & [= <-])%bind_Ret_inv.
  split.
  - intros Hnd. apply NoDup_set_union; [done|].
    apply NoDup_list_difference, NoDup_remove_dups.
  - intros w [?|Hw]%elem_of_set_union; [by left|right].
    apply elem_of_set_difference in Hw as [Hw _].
    rewrite elem_of_set_of_list in Hw.
    eapply elem_of_sublist; [|done].
    case_decide; [by apply elem_of_list_remove_1 in Hw|done].
Qed.

(** With the indices in range, one turn of the loop returns, and adds
    exactly the words that agree with [domY] and differ from it. *)
Lemma revise_body_spec x kx ky domains Dx domY auxiliar :
  dict_get domains x = Some Dx → NoDup Dx →
  in_range kx Dx → ky < len_str domY →
  ∃ auxiliar', revise_body x kx ky domains domY auxiliar = Ret auxiliar' ∧
    ∀ w, w ∈ auxiliar' ↔
         w ∈ auxiliar ∨ (w ∈ Dx ∧ domY ≠ w ∧ agree w kx domY ky).
Proof.
  intros HDx Hnd Hkx Hky. unfold revise_body, domains_get. rewrite HDx. simpl.
  destruct (str_index_lt _ _ Hky) as [cy Hcy].
  rewrite (comprehension_if_filter _
             (λ domX, String.get kx domX = String.get ky domY)); last first.
  { intros domX HdomX. destruct (str_index_lt _ _ (Hkx _ HdomX)) as [cx Hcx].
    unfold str_index. rewrite Hcx, Hcy. simpl. f_equal.
    apply bool_decide_ext. split; [by intros ->|by intros [= ->]]. }
  simpl. eexists; split; [done|]. intros w.
  rewrite elem_of_set_union, elem_of_set_difference, elem_of_set_of_list.
  assert (Hres : w ∈ (if decide (domY ∈ filter (λ domX, String.get kx domX = String.get ky domY) Dx)
                      then list_remove domY (filter (λ domX, String.get kx domX = String.get ky domY) Dx)
                      else filter (λ domX, String.get kx domX = String.get ky domY) Dx)
                 ↔ w ∈ Dx ∧ domY ≠ w ∧ agree w kx domY ky).
  { assert (Hag : String.get kx w = String.get ky domY ↔ agree w kx domY ky).
    { unfold agree. rewrite Hcy. split; [by eauto|]. by intros (c & -> & [= ->]). }
    case_decide as Hin.
    - rewrite elem_of_list_remove by by apply NoDup_filter.
      rewrite list_elem_of_filter, Hag. split; [intros [[? ?] ?]|intros (?&?&?)]; split_and!; done.
    - rewrite list_elem_of_filter, Hag. split; [|intros (?&?&?); done].
      intros [Hw1 Hw2]. split_and!; [done| |done].
      intros ->. apply Hin. apply list_elem_of_filter. by rewrite Hag. }
  rewrite Hres. destruct (decide (w ∈ auxiliar)); tauto.
Qed.

Lemma revise_loop_subset x kx ky domains Dx Dy auxiliar auxiliar' :
  dict_get domains x = Some Dx →
  for_each Dy (revise_body x kx ky domains) auxiliar = Ret auxiliar' →
  (NoDup auxiliar → NoDup auxiliar') ∧
  ∀ w, w ∈ auxiliar' → w ∈ auxiliar ∨ w ∈ Dx.
Proof.
  intros HDx. revert auxiliar. induction Dy as [|domY Dy IH]; simpl; intros auxiliar.
  - intros [= <-]. split; [done|]. by left.
  - intros (aux1 & Hb & Hl)%bind_Ret_inv.
    destruct (revise_body_subset _ _ _ _ _ _ _ _ HDx Hb) as [Hnd1 Hsub1].
    destruct (IH _ Hl) as [Hnd2 Hsub2]. split; [by auto|].
    intros w [Hw|?]%Hsub2; [by apply Hsub1|by right].
Qed.

Lemma revise_loop_spec x kx ky domains Dx Dy auxiliar :
  dict_get domains x = Some Dx → NoDup Dx →
  in_range kx Dx → in_range ky Dy →
  ∃ auxiliar', for_each Dy (revise_body x kx ky domains) auxiliar = Ret auxiliar' ∧
    ∀ w, w ∈ auxiliar' ↔
         w ∈ auxiliar ∨ (w ∈ Dx ∧ ∃ v, v ∈ Dy ∧ v ≠ w ∧ agree w kx v ky).
Proof.
  intros HDx Hnd Hkx. revert auxiliar.
  induction Dy as [|domY Dy IH]; simpl; intros auxiliar Hky.
  - eexists; split; [done|]. intros w. split; [by left|].
    intros [?|(_ & v & []%elem_of_nil & _)]; done.
  - destruct (revise_body_spec x kx ky domains Dx domY auxiliar)
      as (aux1 & -> & Haux1); [done|done|done|apply Hky, elem_of_cons; by left|].
    simpl. destruct (IH aux1) as (aux2 & -> & Haux2).
    { intros v Hv. apply Hky, elem_of_cons. by right. }
    eexists; split; [done|]. intros w. rewrite Haux2, Haux1.
    setoid_rewrite elem_of_cons. split.
    + intros [[?|(?&?&?)]|(?&v&?&?&?)]; [by left|right..].
      * split; [done|]. exists domY. split_and!; [by left|done|done].
      * split; [done|]. exists v. split_and!; [by right|done|done].
    + intros [?|(?&v&[->|?]&?&?)]; [by left; left|by left; right|right].
      split; [done|]. by exists v.
Qed.

(** When [revise x y] returns, it has replaced [domains[x]] by a set of
    words that were in it, and has answered [True]. *)
Lemma revise_Ret_inv x y domains b domains' :
  revise crossword x y domains = Ret (b, domains') →
  ∃ Dx Dy ky kx Dx',
    dict_get domains x = Some Dx ∧ dict_get domains y = Some Dy ∧
    overlaps crossword (y, x) = Some (Some (ky, kx)) ∧
    for_each Dy (revise_body x kx ky domains) [] = Ret Dx' ∧
    b = true ∧ domains' = dict_set domains x Dx' ∧
    NoDup Dx' ∧ Dx' ⊆ Dx.
Proof.
  unfold revise, domains_get, overlaps_get.
  destruct (dict_get domains x) as [Dx|] eqn:HDx; [simpl|done].
  destruct (overlaps crossword (y, x)) as [[[ky kx]|]|] eqn:Hov; [simpl|done..].
  destruct (dict_get domains y) as [Dy|] eqn:HDy; [simpl|done].
  intros (Dx' & Hloop & Hret)%bind_Ret_inv.
  rewrite dict_get_set_eq in Hret. simpl in Hret. injection Hret as <- <-.
  destruct (revise_loop_subset _ _ _ _ _ _ _ _ HDx Hloop) as [Hnd Hsub].
  exists Dx, Dy, ky, kx, Dx'. split_and!; try done.
  - apply Hnd, NoDup_nil_2.
  - intros w [[]%elem_of_nil|?]%Hsub; done.
Qed.

(** With every index in range, [revise x y] returns. *)
Lemma revise_spec x y domains Dx Dy ky kx :
  dict_get domains x = Some Dx → dict_get domains y = Some Dy →
  overlaps crossword (y, x) = Some (Some (ky, kx)) →
  NoDup Dx → in_range kx Dx → in_range ky Dy →
  ∃ Dx', revise crossword x y domains = Ret (true, dict_set domains x Dx') ∧
    ∀ w, w ∈ Dx' ↔ w ∈ Dx ∧ ∃ v, v ∈ Dy ∧ v ≠ w ∧ agree w kx v ky.
Proof.
  intros HDx HDy Hov Hnd Hkx Hky.
  destruct (revise_loop_spec x kx ky domains Dx Dy [] HDx Hnd Hkx Hky)
    as (Dx' & Hloop & Hspec).
  exists Dx'. split.
  - unfold revise, domains_get, overlaps_get. rewrite HDx, Hov, HDy. simpl.
    rewrite Hloop. simpl. by rewrite dict_get_set_eq.
  - intros w. rewrite Hspec. split; [|by right].
    by intros [[]%elem_of_nil|?].
Qed.
End revise_facts.

Lemma in_range_Forall (k : nat) (D : list word) :
  Forall (λ w, k < len_str w) D → in_range k D.
Proof. intros HD w Hw. by eapply Forall_forall in HD. Qed.

(** ** C6: which words [revise] keeps *)

(** C6, as the specification states it, fails: in the puzzle [corner], with
    both domains {CAT, DOG}, the word CAT of the across slot agrees at the
    shared cell with the word CAT of the down slot, yet [revise] removes it
    (and DOG likewise): a word is not accepted as its own support. *)
Lemma revise_rejects_equal_support :
  let domains := enforce_node_consistency (init corner) in
  ∃ Dx Dy Dx' domains',
    corner_y ∈ neighbors corner corner_x ∧
    overlaps corner (corner_y, corner_x) = Some (Some (0, 0)) ∧
    dict_get domains corner_x = Some Dx ∧
    dict_get domains corner_y = Some Dy ∧
    revise corner corner_x corner_y domains = Ret (true, domains') ∧
    dict_get domains' corner_x = Some Dx' ∧
    ¬ (∀ w, w ∈ Dx' ↔ w ∈ Dx ∧ ∃ v, v ∈ Dy ∧ agree w 0 v 0).
Proof.
  exists ["CAT"; "DOG"], ["CAT"; "DOG"], [], [(corner_x, []); (corner_y, ["CAT"; "DOG"])].
  split_and!; [by vm_compute; left|reflexivity..|].
  intros Hiff. assert (Hin : "CAT" ∈ @nil word); [|by apply elem_of_nil in Hin].
  apply Hiff. split; [by left|]. exists "CAT". split; [by left|].
  by exists "C"%char.
Qed.

(** C6, amended: for slots [x] and [y] with overlap record
    [overlaps[y, x] = (ky, kx)], whose domains have a character at the
    overlap index, [revise x y] returns and replaces [domains[x]] by the
    words [w] of it for which some word [v] of [domains[y]], different from
    [w], has [w[kx] == v[ky]]; every other word is removed. *)
Theorem revise_keeps_words_with_other_support
    (crossword : Crossword) (x y : Var) (domains : Domains)
    (Dx Dy : list word) (ky kx : nat) :
  dict_get domains x = Some Dx →
  dict_get domains y = Some Dy →
  overlaps crossword (y, x) = Some (Some (ky, kx)) →
  NoDup Dx → in_range kx Dx → in_range ky Dy →
  ∃ Dx', revise crossword x y domains = Ret (true, dict_set domains x Dx') ∧
    ∀ w, w ∈ Dx' ↔ w ∈ Dx ∧ ∃ v, v ∈ Dy ∧ v ≠ w ∧ agree w kx v ky.
Proof. apply revise_spec. Qed.

Lemma revise_keeps_words_with_other_support_witness :
  let domains := enforce_node_consistency (init two_slots) in
  ∃ Dx', revise two_slots slot_A slot_B domains
           = Ret (true, dict_set domains slot_A Dx') ∧
    ∀ w, w ∈ Dx' ↔ w ∈ ["CAT"; "CAR"; "TEA"; "ART"] ∧
                   ∃ v, v ∈ ["CAT"; "CAR"; "TEA"; "ART"] ∧ v ≠ w ∧ agree w 1 v 0.
Proof.
  apply (revise_keeps_words_with_other_support two_slots slot_A slot_B
           (enforce_node_consistency (init two_slots))
           ["CAT"; "CAR"; "TEA"; "ART"] ["CAT"; "CAR"; "TEA"; "ART"] 0 1).
  - reflexivity.
  - reflexivity.
  - reflexivity.
  - compute_done.
  - apply in_range_Forall. repeat constructor.
  - apply in_range_Forall. repeat constructor.
Defined.

(** ** Monotonic shrinkage *)

Lemma domains_shrink_refl (domains : Domains) : domains_shrink domains domains.
Proof. intros s D HD. by exists D. Qed.

Lemma domains_shrink_trans (d1 d2 d3 : Domains) :
  domains_shrink d1 d2 → domains_shrink d2 d3 → domains_shrink d1 d3.
Proof.
  intros H12 H23 s D1 HD1.
  destruct (H12 _ _ HD1) as (D2 & HD2 & Hsub12).
  destruct (H23 _ _ HD2) as (D3 & HD3 & Hsub23).
  exists D3. split; [done|]. by trans D2.
Qed.

Lemma domains_shrink_set (domains : Domains) (x : Var) (Dx Dx' : list word) :
  dict_get domains x = Some Dx → Dx' ⊆ Dx →
  domains_shrink (dict_set domains x Dx') domains.
Proof.
  intros HDx Hsub s D'. rewrite dict_get_set. case_decide as Hs.
  - subst s. intros [= <-]. by exists Dx.
  - intros HD'. by exists D'.
Qed.

Lemma enforce_fold_get (items acc : Domains) (v : Var) :
  NoDup (keys items) →
  dict_get
    (fold_left (λ (doms : Domains) '(var, domain),
                  dict_set doms var (fitting var domain)) items acc) v
  = match dict_get items v with
    | Some D => Some (fitting v D)
    | None => dict_get acc v
    end.
Proof.
  revert acc. induction items as [|[k D] items IH]; simpl; intros acc Hnd; [done|].
  apply NoDup_cons in Hnd as [Hk Hnd]. rewrite IH by done.
  destruct (decide (v = k)) as [->|Hne].
  - apply dict_get_None in Hk. by rewrite Hk, dict_get_set_eq.
  - rewrite dict_get_set_ne by done. done.
Qed.

Lemma enforce_fold_keys (items acc : Domains) :
  keys items ⊆ keys acc →
  keys (fold_left (λ (doms : Domains) '(var, domain),
                     dict_set doms var (fitting var domain)) items acc)
  = keys acc.
Proof.
  revert acc. induction items as [|[k D] items IH]; simpl; intros acc Hsub; [done|].
  assert (Hk : k ∈ keys acc) by (apply Hsub, elem_of_cons; by left).
  rewrite IH; [by apply keys_dict_set_in|].
  rewrite keys_dict_set_in by done.
  intros k' Hk'. apply Hsub, elem_of_cons. by right.
Qed.

Lemma enforce_node_consistency_get (domains : Domains) (v : Var) :
  NoDup (keys domains) →
  dict_get (enforce_node_consistency domains) v = fitting v <$> dict_get domains v.
Proof.
  intros Hnd. unfold enforce_node_consistency.
  rewrite (enforce_fold_get domains domains v Hnd).
  by destruct (dict_get domains v).
Qed.

Lemma enforce_node_consistency_keys (domains : Domains) :
  keys (enforce_node_consistency domains) = keys domains.
Proof. by apply enforce_fold_keys. Qed.

Lemma elem_of_fitting (var : Var) (domain : list word) (w : word) :
  w ∈ fitting var domain ↔ len_str w = var_length var ∧ w ∈ domain.
Proof. unfold fitting. by rewrite elem_of_set_of_list, list_elem_of_filter. Qed.

Lemma enforce_node_consistency_shrink (domains : Domains) :
  NoDup (keys domains) →
  domains_shrink (enforce_node_consistency domains) domains.
Proof.
  intros Hnd s D'. rewrite enforce_node_consistency_get by done.
  destruct (dict_get domains s) as [D|]; [|done]. intros [= <-].
  exists D. split; [done|]. by intros w [_ ?]%elem_of_fitting.
Qed.

Lemma enforce_node_consistency_node_consistent (domains : Domains) :
  NoDup (keys domains) → node_consistent (enforce_node_consistency domains).
Proof.
  intros Hnd s D w. rewrite enforce_node_consistency_get by done.
  destruct (dict_get domains s) as [D0|]; [|done]. intros [= <-].
  by intros [? _]%elem_of_fitting.
Qed.

Lemma node_consistent_shrink (after before : Domains) :
  domains_shrink after before → node_consistent before → node_consistent after.
Proof.
  intros Hsh Hnc s D' w HD' Hw.
  destruct (Hsh _ _ HD') as (D & HD & Hsub). eapply Hnc; [done|]. by apply Hsub.
Qed.

Section shrink.
Context (crossword : Crossword).

Lemma revise_shrink x y domains b domains' :
  revise crossword x y domains = Ret (b, domains') →
  domains_shrink domains' domains.
Proof.
  intros (Dx & Dy & ky & kx & Dx' & HDx & _ & _ & _ & _ & -> & _ & Hsub)%revise_Ret_inv.
  by eapply domains_shrink_set.
Qed.

(** One turn of the loop of [ac3]: what it can return. *)
Lemma ac3_body_inv q quee domains r :
  ac3_body crossword q quee domains = Ret r →
  ∃ domains' vecinos,
    revise crossword q.1 q.2 domains = Ret (true, domains') ∧
    set_remove (neighbors crossword q.1) q.2 = Ret vecinos ∧
    r = inr (quee ++ map (λ vecino, (vecino, q.1)) vecinos, domains').
Proof.
  unfold ac3_body. intros ([b domains'] & Hrev & Hrest)%bind_Ret_inv.
  pose proof Hrev as (Dx & Dy & ky & kx & Dx' & HDx & _ & _ & _ & -> & -> & _)%revise_Ret_inv.
  unfold domains_get in Hrest. rewrite dict_get_set_eq in Hrest. simpl in Hrest.
  apply bind_Ret_inv in Hrest as (vecinos & Hrem & [= <-]).
  by exists (dict_set domains q.1 Dx'), vecinos.
Qed.

Lemma ac3_loop_shrink fuel quee domains b domains' :
  ac3_loop crossword fuel quee domains = Ret (b, domains') →
  domains_shrink domains' domains.
Proof.
  revert quee domains. induction fuel as [|fuel IH]; intros [|q quee] domains; simpl.
  - intros [= <- <-]. apply domains_shrink_refl.
  - done.
  - intros [= <- <-]. apply domains_shrink_refl.
  - intros (r & (d1 & vecinos & Hrev & _ & ->)%ac3_body_inv & Hloop)%bind_Ret_inv.
    eapply domains_shrink_trans; [by eapply IH|by eapply revise_shrink].
Qed.

Lemma ac3_visits_shrink domains0 quee domains :
  ac3_visits crossword domains0 quee domains → domains_shrink domains domains0.
Proof.
  induction 1 as [|q quee domains quee' domains' _ IH Hbody].
  - apply domains_shrink_refl.
  - apply ac3_body_inv in Hbody as (d1 & vecinos & Hrev & _ & [= _ <-]).
    eapply domains_shrink_trans; [by eapply revise_shrink|done].
Qed.

(** The scoring branch of [order_domain_values] is never taken: the value
    of [intersection_update] is [None].  The method hands back a copy of
    the domain and leaves the domain map alone. *)
Lemma order_domain_values_eq var assignment domains :
  order_domain_values crossword var assignment domains
  = (D <- domains_get domains var ; Ret (Some D, domains)).
Proof.
  unfold order_domain_values, domains_get.
  by destruct (dict_get domains var).
Qed.

Lemma backtrack_for_domains rec variable vals assignment domains r a' domains' :
  (∀ a d r a' d', rec a d = Ret (r, a', d') → d' = d) →
  backtrack_for crossword rec variable vals assignment domains = Ret (r, a', domains') →
  domains' = domains.
Proof.
  intros Hrec. revert assignment.
  induction vals as [|value vals IH]; simpl; intros assignment.
  - by intros [= _ _ <-].
  - intros (ok & _ & Hrest)%bind_Ret_inv. destruct ok.
    + apply bind_Ret_inv in Hrest as ([[r1 a1] d1] & Hr & Hret).
      apply Hrec in Hr as ->. by destruct r1; injection Hret as _ _ <-.
    + apply bind_Ret_inv in Hrest as (a1 & _ & Hrest). by eapply IH.
Qed.

Lemma backtrack_domains fuel assignment domains r a' domains' :
  backtrack crossword fuel assignment domains = Ret (r, a', domains') →
  domains' = domains.
Proof.
  revert assignment domains r a' domains'.
  induction fuel as [|fuel IH]; simpl; intros assignment domains r a' domains'; [done|].
  intros (complete & _ & Hrest)%bind_Ret_inv. destruct complete.
  - by injection Hrest as _ _ <-.
  - apply bind_Ret_inv in Hrest as (variable & _ & Hrest).
    rewrite order_domain_values_eq in Hrest.
    apply bind_Ret_inv in Hrest as ([vals d1] & (D & _ & [= <- <-])%bind_Ret_inv & Hrest).
    eapply backtrack_for_domains; [|done]. apply IH.
Qed.
End shrink.

(** ** C9: domains only shrink *)

(** C9: every operation of the engine leaves each slot's domain a subset of
    what it was: node consistency, [revise], [ac3] (at its return and at
    every turn of its loop), [order_domain_values], the backtracking search
    and [solve] as a whole.  The domain map is a dictionary, so its keys are
    distinct. *)
Theorem domains_never_grow (crossword : Crossword) (domains : Domains) :
  NoDup (keys domains) →
  domains_shrink (enforce_node_consistency domains) domains ∧
  (∀ x y b domains',
     revise crossword x y domains = Ret (b, domains') →
     domains_shrink domains' domains) ∧
  (∀ fuel arcs b domains',
     ac3 crossword fuel arcs domains = Ret (b, domains') →
     domains_shrink domains' domains) ∧
  (∀ quee domains',
     ac3_visits crossword domains quee domains' →
     domains_shrink domains' domains) ∧
  (∀ var assignment vals domains',
     order_domain_values crossword var assignment domains = Ret (vals, domains') →
     domains_shrink domains' domains) ∧
  (∀ fuel assignment r a' domains',
     backtrack crossword fuel assignment domains = Ret (r, a', domains') →
     domains_shrink domains' domains) ∧
  (∀ fuel r a' domains',
     solve crossword fuel domains = Ret (r, a', domains') →
     domains_shrink domains' domains).
Proof.
  intros Hnd. split_and!.
  - by apply enforce_node_consistency_shrink.
  - intros x y b domains'. apply revise_shrink.
  - intros fuel arcs b domains'. apply ac3_loop_shrink.
  - intros quee domains'. apply ac3_visits_shrink.
  - intros var assignment vals domains'. rewrite order_domain_values_eq.
    intros (D & _ & [= _ <-])%bind_Ret_inv. apply domains_shrink_refl.
  - intros fuel assignment r a' domains' ->%backtrack_domains.
    apply domains_shrink_refl.
  - intros fuel r a' domains'. unfold solve.
    intros ([b d1] & Hac3%ac3_loop_shrink & ->%backtrack_domains)%bind_Ret_inv.
    eapply domains_shrink_trans; [done|]. by apply enforce_node_consistency_shrink.
Qed.

Lemma domains_never_grow_witness :
  domains_shrink (enforce_node_consistency (init two_slots)) (init two_slots) ∧
  domains_shrink [(slot_A, ["CAT"; "CAR"]); (slot_B, ["ART"])] (init two_slots).
Proof.
  destruct (domains_never_grow two_slots (init two_slots))
    as (Hnode & _ & _ & _ & _ & _ & Hsolve); [compute_done|].
  split; [exact Hnode|].
  apply (Hsolve 10 (Some [(slot_B, "ART"); (slot_A, "CAT")])
           [(slot_B, "ART"); (slot_A, "CAT")]).
  vm_compute. reflexivity.
Defined.

(** ** The consistency checker *)

(** Loops over a flag that is only ever cleared. *)
Lemma for_each_false {A : Type} (l : list A) (body : A → bool → result bool) (b : bool) :
  (∀ x b', body x false = Ret b' → b' = false) →
  for_each l body false = Ret b → b = false.
Proof.
  intros Habs. induction l as [|x l IH]; simpl.
  - by intros [= <-].
  - intros (t & Ht%Habs & Hl)%bind_Ret_inv. subst t. auto.
Qed.

Lemma for_each_true {A : Type} (l : list A) (body : A → bool → result bool) (s : bool) :
  (∀ x b', body x false = Ret b' → b' = false) →
  for_each l body s = Ret true →
  s = true ∧ ∀ x, x ∈ l → body x true = Ret true.
Proof.
  intros Habs. revert s. induction l as [|x l IH]; simpl; intros s.
  - intros [= <-]. split; [done|]. by intros x []%elem_of_nil.
  - intros (t & Ht & Hl)%bind_Ret_inv.
    destruct (IH _ Hl) as [-> Hall]. destruct s.
    + split; [done|]. intros y [->|?]%elem_of_cons; auto.
    + by apply Habs in Ht.
Qed.

Section consistent_facts.
Context (crossword : Crossword).

(** What [consistent] has checked when it answers [True]: every assigned
    slot whose word has the slot's length agrees with each of its assigned
    neighbours at their overlap. *)
Lemma consistent_true_inv (assignment : Assignment) :
  consistent crossword assignment = Ret true →
  ∀ var wd, (var, wd) ∈ assignment →
    var_length var = len_str wd →
    ∀ vecino, vecino ∈ neighbors crossword var → vecino ∈ keys assignment →
      ∃ k0 k1 other,
        overlaps crossword (var, vecino) = Some (Some (k0, k1)) ∧
        dict_get assignment vecino = Some other ∧
        agree wd k0 other k1.
Proof.
  unfold consistent. intros Hc var wd Hin Hlen vecino Hvec Hkey.
  set (inner := λ (var : Var) (wd : word) (vecino : Var) (consisten : bool),
         bind (overlaps_get crossword var vecino) (λ overlap,
         bind (item0 overlap) (λ k0,
         bind (str_index wd k0) (λ c0,
         bind (assignment_get assignment vecino) (λ other,
         bind (item1 overlap) (λ k1,
         bind (str_index other k1) (λ c1,
         Ret (if decide (c0 ≠ c1) then false else consisten)))))))) in *.
  assert (Hinner : ∀ var wd x b', inner var wd x false = Ret b' → b' = false).
  { intros v w x b'. unfold inner.
    intros (?&_&(?&_&(?&_&(?&_&(?&_&(?&_&Hr)%bind_Ret_inv)%bind_Ret_inv)%bind_Ret_inv)%bind_Ret_inv)%bind_Ret_inv)%bind_Ret_inv.
    by case_decide; injection Hr as <-. }
  apply for_each_true in Hc as [_ Hc].
  - specialize (Hc _ Hin). simpl in Hc. rewrite decide_True in Hc by done.
    apply for_each_true in Hc as [_ Hc]; [|by apply Hinner].
    specialize (Hc vecino). unfold inner in Hc.
    assert (Hv : vecino ∈ set_intersection (set_of_list (neighbors crossword var))
                                      (set_of_list (keys assignment))).
    { by rewrite elem_of_set_intersection, !elem_of_set_of_list. }
    apply Hc in Hv. clear Hc. revert Hv.
    unfold overlaps_get, item0, item1, assignment_get, str_index.
    destruct (overlaps crossword (var, vecino)) as [[[k0 k1]|]|]; [simpl|done..].
    destruct (String.get k0 wd) as [c0|] eqn:Hc0; [simpl|done].
    destruct (dict_get assignment vecino) as [other|]; [simpl|done].
    destruct (String.get k1 other) as [c1|] eqn:Hc1; [simpl|done].
    case_decide as Hne; [done|]. intros _.
    exists k0, k1, other. split_and!; [done..|].
    exists c0. split; [done|]. rewrite Hc1. f_equal.
    by destruct (decide (c0 = c1)) as [->|?].
  - intros [v w] b'. case_decide; [|by intros [= <-]].
    apply for_each_false, Hinner.
Qed.
End consistent_facts.

(** ** Variable selection *)

Section select_facts.
Context (crossword : Crossword).

Lemma maxdatos_keys (domains : Domains) (l : list Var) (d d' : dict Var nat) :
  for_each l
    (λ x (d : dict Var nat),
       Dx <- domains_get domains x ; Ret (dict_set d x (length Dx))) d = Ret d' →
  (∀ x, x ∈ l → is_Some (dict_get domains x)) ∧
  (∀ x, x ∈ keys d' → x ∈ keys d ∨ x ∈ l).
Proof.
  revert d. induction l as [|x l IH]; simpl; intros d.
  - intros [= <-]. split; [by intros x []%elem_of_nil|]. by left.
  - intros (d1 & (Dx & HDx & [= <-])%bind_Ret_inv & Hl)%bind_Ret_inv.
    destruct (IH _ Hl) as [Hdom Hkeys]. split.
    + intros y [->|?]%elem_of_cons; [|by auto].
      unfold domains_get in HDx. by destruct (dict_get domains x).
    + intros y [Hy|Hy]%Hkeys; [|right; apply elem_of_cons; by right].
      apply elem_of_keys_dict_set in Hy as [->|?]; [right|by left].
      apply elem_of_cons; by left.
Qed.

Lemma degreeDatos_keys (l : list Var) (d : dict Var nat) (x : Var) :
  x ∈ keys (fold_left (λ d x, dict_set d x (length (neighbors crossword x))) l d) →
  x ∈ keys d ∨ x ∈ l.
Proof.
  revert d. induction l as [|y l IH]; simpl; intros d; [by left|].
  intros [Hx|Hx]%IH; [|right; apply elem_of_cons; by right].
  apply elem_of_keys_dict_set in Hx as [->|?]; [right|by left].
  apply elem_of_cons; by left.
Qed.

Lemma keep_max_keys (d d' : dict Var nat) (x : Var) :
  keep_max d = Ret d' → x ∈ keys d' → x ∈ keys d.
Proof.
  intros Hsub%comprehension_if_sublist Hx.
  apply list_elem_of_fmap in Hx as ([k n] & -> & Hkn).
  apply list_elem_of_fmap. exists (k, n). split; [done|].
  by eapply elem_of_sublist.
Qed.

(** The slot that [select_unassigned_variable] returns is in exactly one
    of the set of slots and the set of assigned slots, and has a domain. *)
Lemma select_unassigned_variable_elem (assignment : Assignment)
    (domains : Domains) (v : Var) :
  select_unassigned_variable crossword assignment domains = Ret v →
  v ∈ set_symmetric_difference (variables crossword)
        (set_of_list (keys assignment)) ∧
  is_Some (dict_get domains v).
Proof.
  unfold select_unassigned_variable.
  intros (maxdatosDict & Hmaxdatos & Hrest)%bind_Ret_inv.
  apply bind_Ret_inv in Hrest as (maxDict & HmaxDict & Hrest).
  apply bind_Ret_inv in Hrest as (degreeDict & HdegreeDict & Hrest).
  apply maxdatos_keys in Hmaxdatos as [Hdom Hkeys].
  assert (Hv : v ∈ set_symmetric_difference (variables crossword)
                     (set_of_list (keys assignment))).
  { assert (Hdeg : v ∈ keys degreeDict → v ∈ set_symmetric_difference
              (variables crossword) (set_of_list (keys assignment))).
    { intros Hin. eapply keep_max_keys in Hin; [|done].
      by apply degreeDatos_keys in Hin as [[]%elem_of_nil|?]. }
    repeat case_decide; apply list_pop_elem in Hrest; [by auto..|].
    eapply keep_max_keys in Hrest; [|done].
    by apply Hkeys in Hrest as [[]%elem_of_nil|?]. }
  split; [done|by apply Hdom].
Qed.
End select_facts.

(** ** The backtracking search *)

Section backtrack_facts.
Context (crossword : Crossword).
Implicit Types (assignment : Assignment) (domains : Domains).

Lemma drawn_from_nil domains : drawn_from crossword domains [].
Proof.
  split_and!; [apply NoDup_nil_2|by intros v []%elem_of_nil|done].
Qed.

Lemma drawn_from_set domains assignment v D w :
  drawn_from crossword domains assignment →
  v ∈ variables crossword → dict_get domains v = Some D → w ∈ D →
  drawn_from crossword domains (dict_set assignment v w).
Proof.
  intros (Hnd & Hvars & Hdom) Hv HD Hw. split_and!.
  - by apply NoDup_keys_dict_set.
  - intros u [->|?]%elem_of_keys_dict_set; auto.
  - intros u w'. rewrite dict_get_set. case_decide as Hu; [|by auto].
    subst u. intros [= <-]. by exists D.
Qed.

(** The slot chosen for a partial assignment of the search is a slot of
    the puzzle that has no word yet. *)
Lemma select_unassigned_variable_fresh assignment domains v :
  drawn_from crossword domains assignment →
  select_unassigned_variable crossword assignment domains = Ret v →
  v ∈ variables crossword ∧ (v ∉ keys assignment) ∧ is_Some (dict_get domains v).
Proof.
  intros (_ & Hvars & _) Hsel.
  apply select_unassigned_variable_elem in Hsel as [Hv Hdom].
  apply elem_of_set_symmetric_difference in Hv.
  rewrite elem_of_set_of_list in Hv.
  destruct Hv as [[? ?]|[? ?]]; [done|]. exfalso; auto.
Qed.

Lemma backtrack_for_sound rec variable vals D assignment domains r a' domains' :
  (∀ a r a' d', drawn_from crossword domains a →
     rec a domains = Ret (Some r, a', d') →
     r = a' ∧ assignment_complete crossword r = Ret true ∧
     drawn_from crossword domains r) →
  drawn_from crossword domains assignment →
  variable ∈ variables crossword → variable ∉ keys assignment →
  dict_get domains variable = Some D → vals ⊆ D →
  backtrack_for crossword rec variable vals assignment domains
    = Ret (Some r, a', domains') →
  r = a' ∧ assignment_complete crossword r = Ret true ∧
  drawn_from crossword domains r.
Proof.
  intros Hrec Hinv Hvar Hfresh HD.
  induction vals as [|value vals IH]; simpl; intros Hsub; [done|].
  assert (Hvalue : value ∈ D) by (apply Hsub, elem_of_cons; by left).
  assert (Hvals : vals ⊆ D) by (intros w ?; apply Hsub, elem_of_cons; by right).
  intros (ok & _ & Hrest)%bind_Ret_inv. destruct ok.
  - apply bind_Ret_inv in Hrest as ([[r1 a1] d1] & Hr & Hret).
    destruct r1 as [r1|]; [|done]. injection Hret as -> -> ->.
    eapply Hrec; [|done]. by eapply drawn_from_set.
  - apply bind_Ret_inv in Hrest as (a1 & Hpop & Hrest).
    unfold assignment_pop in Hpop. rewrite dict_pop_fresh in Hpop by done.
    injection Hpop as <-. by apply IH.
Qed.

(** A value returned by [backtrack] other than [None] is the dictionary
    it was given, in its final state, and passed [assignment_complete]. *)
Lemma backtrack_sound fuel assignment domains r a' domains' :
  drawn_from crossword domains assignment →
  backtrack crossword fuel assignment domains = Ret (Some r, a', domains') →
  r = a' ∧ assignment_complete crossword r = Ret true ∧
  drawn_from crossword domains r.
Proof.
  revert assignment r a' domains'.
  induction fuel as [|fuel IH]; simpl; intros assignment r a' domains' Hinv; [done|].
  intros (complete & Hcomplete & Hrest)%bind_Ret_inv. destruct complete.
  - by injection Hrest as <- <- <-.
  - apply bind_Ret_inv in Hrest as (variable & Hsel & Hrest).
    rewrite order_domain_values_eq in Hrest.
    apply bind_Ret_inv in Hrest as ([vals d1] & (D & HD & [= <- <-])%bind_Ret_inv & Hrest).
    destruct (select_unassigned_variable_fresh _ _ _ Hinv Hsel) as (Hvar & Hfresh & _).
    unfold domains_get in HD.
    destruct (dict_get domains variable) as [D'|] eqn:HD'; [|done].
    injection HD as ->.
    eapply backtrack_for_sound; [|done..].
    intros a r0 a0 d0 Ha Hr. by eapply IH.
Qed.
End backtrack_facts.

(** ** C1: what [solve] returns *)

Lemma keys_init (crossword : Crossword) : keys (init crossword) = variables crossword.
Proof.
  unfold init, keys.
  induction (variables crossword) as [|v l IH]; simpl; [done|]. by f_equal.
Qed.

Lemma ac3_node_consistent (crossword : Crossword) fuel arcs domains b domains' :
  node_consistent domains →
  ac3 crossword fuel arcs domains = Ret (b, domains') →
  node_consistent domains'.
Proof.
  intros Hnc Hac3%ac3_loop_shrink. by eapply node_consistent_shrink.
Qed.

(** C1: when [solve] returns an assignment, every slot of the puzzle has a
    word in it and no other key occurs, each key once; every word has the
    length of its slot; and for every slot and every neighbour of it the
    overlap record is present and the two words carry the same character at
    the overlap.  This holds from any state [domains] of the solver, the
    freshly created one included.  The slots of the puzzle form a set and
    the domain map is a dictionary, so the slots are distinct and so are the
    keys. *)
Theorem solve_returns_complete_consistent
    (crossword : Crossword) (fuel : nat) (domains : Domains)
    (r a' : Assignment) (domains' : Domains) :
  NoDup (variables crossword) →
  NoDup (keys domains) →
  solve crossword fuel domains = Ret (Some r, a', domains') →
  (∀ v, v ∈ variables crossword → ∃ w, dict_get r v = Some w) ∧
  NoDup (keys r) ∧
  (∀ v, v ∈ keys r → v ∈ variables crossword) ∧
  (∀ v w, dict_get r v = Some w → len_str w = var_length v) ∧
  (∀ v n w w',
     dict_get r v = Some w → n ∈ neighbors crossword v → dict_get r n = Some w' →
     ∃ kv kn, overlaps crossword (v, n) = Some (Some (kv, kn)) ∧ agree w kv w' kn).
Proof.
  intros Hvars Hdoms. unfold solve.
  intros ([b d2] & Hac3 & Hbt)%bind_Ret_inv.
  assert (Hnc : node_consistent d2).
  { eapply ac3_node_consistent; [|done].
    by apply enforce_node_consistency_node_consistent. }
  apply backtrack_sound in Hbt as (_ & Hcomplete & Hnd & Hkeys & Hdom);
    [|apply drawn_from_nil].
  unfold assignment_complete in Hcomplete.
  case_decide as Hlen; [|done].
  assert (Hperm : keys r ≡ₚ variables crossword).
  { apply submseteq_length_Permutation; [by apply NoDup_submseteq|].
    by rewrite Hlen. }
  assert (Hfit : ∀ v w, dict_get r v = Some w → len_str w = var_length v).
  { intros v w (D & HD & Hw)%Hdom. by eapply Hnc. }
  split_and!; [|done..|].
  - intros v Hv. rewrite <- Hperm in Hv. by apply dict_get_is_Some in Hv.
  - intros v n w w' Hw Hn Hw'.
    destruct (consistent_true_inv crossword r Hcomplete v w) with (vecino := n)
      as (kv & kn & other & Hov & Hother & Hagree).
    + by apply dict_get_Some_elem.
    + symmetry. by apply Hfit.
    + done.
    + by eapply dict_get_Some_key.
    + exists kv, kn. split; [done|]. by simplify_eq.
Qed.

Lemma solve_returns_complete_consistent_witness :
  let r := [(slot_B, "ART"); (slot_A, "CAT")] in
  (∀ v, v ∈ variables two_slots → ∃ w, dict_get r v = Some w) ∧
  NoDup (keys r) ∧
  (∀ v, v ∈ keys r → v ∈ variables two_slots) ∧
  (∀ v w, dict_get r v = Some w → len_str w = var_length v) ∧
  (∀ v n w w',
     dict_get r v = Some w → n ∈ neighbors two_slots v → dict_get r n = Some w' →
     ∃ kv kn, overlaps two_slots (v, n) = Some (Some (kv, kn)) ∧ agree w kv w' kn).
Proof.
  apply (solve_returns_complete_consistent two_slots 10 (init two_slots)
           [(slot_B, "ART"); (slot_A, "CAT")] [(slot_B, "ART"); (slot_A, "CAT")]
           [(slot_A, ["CAT"; "CAR"]); (slot_B, ["ART"])]).
  - compute_done.
  - compute_done.
  - vm_compute. reflexivity.
Defined.

(** ** Exceptions *)

Lemma bind_Raise_inv {A B : Type} (m : result A) (f : A → result B) (e : exn) :
  bind m f = Raise e → m = Raise e ∨ ∃ a, m = Ret a ∧ f a = Raise e.
Proof. destruct m; simpl; [intros ?; right; by eauto|intros [= ->]; by left|done]. Qed.

Lemma for_each_Raise_inv {A S : Type} (l : list A) (body : A → S → result S)
    (s : S) (e : exn) :
  for_each l body s = Raise e → ∃ x t, x ∈ l ∧ body x t = Raise e.
Proof.
  revert s. induction l as [|x l IH]; simpl; intros s; [done|].
  intros [Hx|(t & _ & (y & u & Hy & Hu)%IH)]%bind_Raise_inv.
  - exists x, s. split; [apply elem_of_cons; by left|done].
  - exists y, u. split; [apply elem_of_cons; by right|done].
Qed.

Lemma comprehension_if_Raise_inv {A : Type} (cond : A → result bool)
    (l : list A) (e : exn) :
  comprehension_if cond l = Raise e → ∃ x, x ∈ l ∧ cond x = Raise e.
Proof.
  induction l as [|x l IH]; simpl; [done|].
  intros [Hx|(b & _ & [(y & Hy & Hc)%IH|(r & _ & [=])]%bind_Raise_inv)]%bind_Raise_inv.
  - exists x. split; [apply elem_of_cons; by left|done].
  - exists y. split; [apply elem_of_cons; by right|done].
Qed.

Section exceptions.
Context (crossword : Crossword).

(** With the overlap record present, [revise] does not fail on it. *)
Lemma revise_Raise_inv x y domains ky kx e :
  overlaps crossword (y, x) = Some (Some (ky, kx)) →
  revise crossword x y domains = Raise e → ¬ overlap_failure e.
Proof.
  intros Hov. unfold revise, overlaps_get, domains_get. rewrite Hov.
  destruct (dict_get domains x) as [Dx|]; simpl; [|intros [= <-]; by intros []].
  destruct (dict_get domains y) as [Dy|]; simpl; [|intros [= <-]; by intros []].
  intros [(domY & aux & _ & Hbody)%for_each_Raise_inv|(aux & _ & Hrest)]%bind_Raise_inv.
  - unfold revise_body, domains_get in Hbody.
    destruct (dict_get domains x) as [Dx0|]; simpl in Hbody;
      [|injection Hbody as <-; by intros []].
    apply bind_Raise_inv in Hbody as [(domX & _ & Hc)%comprehension_if_Raise_inv|(res & _ & [=])].
    unfold str_index in Hc.
    destruct (String.get kx domX); simpl in Hc; [|injection Hc as <-; by intros []].
    destruct (String.get ky domY); simpl in Hc; [done|injection Hc as <-; by intros []].
  - by rewrite dict_get_set_eq in Hrest.
Qed.

Lemma ac3_body_Raise_inv q quee domains e :
  ac3_body crossword q quee domains = Raise e →
  revise crossword q.1 q.2 domains = Raise e ∨ e = KeyError_remove q.2.
Proof.
  unfold ac3_body.
  intros [?|([b d1] & Hrev & Hrest)]%bind_Raise_inv; [by left|right].
  apply revise_Ret_inv in Hrev as (Dx & Dy & ky & kx & Dx' & _ & _ & _ & _ & -> & -> & _).
  unfold domains_get in Hrest. rewrite dict_get_set_eq in Hrest. simpl in Hrest.
  apply bind_Raise_inv in Hrest as [Hrem|(vecinos & _ & [=])].
  unfold set_remove in Hrem. case_decide; [done|]. by injection Hrem as <-.
Qed.

Lemma elem_of_initial_arcs x y :
  (x, y) ∈ initial_arcs crossword ↔
  y ∈ variables crossword ∧ x ∈ neighbors crossword y.
Proof.
  unfold initial_arcs. rewrite list_elem_of_In, in_flat_map.
  setoid_rewrite <- list_elem_of_In. split.
  - intros (var & Hvar & (vecino & Heq & Hvec)%list_elem_of_fmap).
    by injection Heq as -> ->.
  - intros [Hy Hx]. exists y. split; [done|].
    apply list_elem_of_fmap. by exists x.
Qed.

(** Every arc on the worklist of [ac3] joins a slot of the puzzle to one
    of its neighbours. *)
Lemma ac3_body_arcs q quee domains quee' domains' :
  neighbors_overlap crossword →
  (∀ x y, (x, y) ∈ q :: quee →
     y ∈ variables crossword ∧ x ∈ neighbors crossword y) →
  ac3_body crossword q quee domains = Ret (inr (quee', domains')) →
  ∀ x y, (x, y) ∈ quee' → y ∈ variables crossword ∧ x ∈ neighbors crossword y.
Proof.
  intros Hno Harcs (d1 & vecinos & _ & Hrem & [= -> ->])%ac3_body_inv x y.
  intros [Hin|(vecino & [= -> ->] & Hvec)%list_elem_of_fmap]%elem_of_app.
  - apply Harcs, elem_of_cons. by right.
  - destruct q as [q1 q2]. simpl in *.
    destruct (Harcs q1 q2) as [Hq2 Hq1]; [apply elem_of_cons; by left|].
    split; [by apply (Hno q2 q1)|].
    unfold set_remove in Hrem. case_decide; [|done]. injection Hrem as <-.
    by apply list_elem_of_filter in Hvec as [_ ?].
Qed.

Lemma ac3_visits_arcs domains0 quee domains :
  neighbors_overlap crossword →
  ac3_visits crossword domains0 quee domains →
  ∀ x y, (x, y) ∈ quee → y ∈ variables crossword ∧ x ∈ neighbors crossword y.
Proof.
  intros Hno. induction 1 as [|q quee domains quee' domains' _ IH Hbody].
  - by intros x y ?%elem_of_initial_arcs.
  - by eapply ac3_body_arcs.
Qed.

Lemma ac3_loop_Raise_inv fuel quee domains e :
  neighbors_overlap crossword →
  (∀ x y, (x, y) ∈ quee →
     y ∈ variables crossword ∧ x ∈ neighbors crossword y) →
  ac3_loop crossword fuel quee domains = Raise e → ¬ overlap_failure e.
Proof.
  intros Hno. revert quee domains.
  induction fuel as [|fuel IH]; intros [|[x y] quee] domains Harcs; simpl; [done..|].
  intros [Hbody|([ret|[quee' d']] & Hbody & Hloop)]%bind_Raise_inv.
  - apply ac3_body_Raise_inv in Hbody as [Hrev| ->]; [|by intros []].
    destruct (Harcs x y) as [Hy Hx]; [apply elem_of_cons; by left|].
    destruct (Hno y x Hy Hx) as (_ & ky & kx & Hov).
    by eapply revise_Raise_inv.
  - done.
  - eapply IH; [|done]. by eapply ac3_body_arcs.
Qed.
End exceptions.

(** ** C10: the arcs [ac3] hands to [revise] *)

(** C10: in a puzzle whose model records an overlap for every pair of
    neighbouring slots, every arc [(x, y)] that [ac3], called without
    [arcs], takes from its worklist and passes to [revise] has [x] among
    the neighbours of [y]; the record [overlaps[y, x]] that [revise] looks
    up is present, and neither that call of [revise] nor [ac3] as a whole
    fails on a missing overlap. *)
Theorem ac3_revises_neighbours_only (crossword : Crossword) (domains0 : Domains) :
  neighbors_overlap crossword →
  (∀ q quee domains,
     ac3_visits crossword domains0 (q :: quee) domains →
     q.1 ∈ neighbors crossword q.2 ∧
     (∃ ky kx, overlaps crossword (q.2, q.1) = Some (Some (ky, kx))) ∧
     (∀ e, revise crossword q.1 q.2 domains = Raise e → ¬ overlap_failure e)) ∧
  (∀ fuel e,
     ac3 crossword fuel None domains0 = Raise e → ¬ overlap_failure e).
Proof.
  intros Hno. split.
  - intros [x y] quee domains Hvisits. simpl.
    destruct (ac3_visits_arcs crossword _ _ _ Hno Hvisits x y) as [Hy Hx];
      [apply elem_of_cons; by left|].
    destruct (Hno y x Hy Hx) as (_ & ky & kx & Hov).
    split_and!; [done|by eauto|].
    intros e. by eapply revise_Raise_inv.
  - intros fuel e. apply ac3_loop_Raise_inv; [done|].
    by intros x y ?%elem_of_initial_arcs.
Qed.

Lemma neighbors_overlapb_true (crossword : Crossword) :
  neighbors_overlapb crossword = true → neighbors_overlap crossword.
Proof.
  unfold neighbors_overlapb. rewrite forallb_forall. intros Hall a b Ha Hb.
  apply list_elem_of_In, Hall in Ha. rewrite forallb_forall in Ha.
  apply list_elem_of_In, Ha, andb_true_iff in Hb as [Hb Hov].
  split; [by apply bool_decide_eq_true in Hb|].
  destruct (overlaps crossword (a, b)) as [[[ka kb]|]|]; [by eauto|done..].
Qed.

Lemma ac3_revises_neighbours_only_witness :
  slot_B ∈ neighbors two_slots slot_A ∧
  (∃ ky kx, overlaps two_slots (slot_A, slot_B) = Some (Some (ky, kx))) ∧
  (∀ e, revise two_slots slot_B slot_A (init two_slots) = Raise e →
        ¬ overlap_failure e).
Proof.
  destruct (ac3_revises_neighbours_only two_slots (init two_slots)) as [Hvisits _].
  - apply neighbors_overlapb_true. vm_compute. reflexivity.
  - apply (Hvisits (slot_B, slot_A) [(slot_A, slot_B)] (init two_slots)).
    exact (visits_start two_slots (init two_slots)).
Defined.

(** ** Termination of [ac3] *)

Lemma comprehension_if_returns {A : Type} (cond : A → result bool) (l : list A) :
  (∀ x, x ∈ l → ∃ b, cond x = Ret b) → ∃ r, comprehension_if cond l = Ret r.
Proof.
  induction l as [|x l IH]; simpl; intros Hc; [by eauto|].
  destruct (Hc x) as [b ->]; [apply elem_of_cons; by left|]. simpl.
  destruct IH as [r ->]; [intros y Hy; apply Hc, elem_of_cons; by right|].
  simpl. by eauto.
Qed.

Lemma for_each_returns {A S : Type} (l : list A) (body : A → S → result S) (s : S) :
  (∀ x t, x ∈ l → ∃ t', body x t = Ret t') → ∃ s', for_each l body s = Ret s'.
Proof.
  revert s. induction l as [|x l IH]; simpl; intros s Hb; [by eauto|].
  destruct (Hb x s) as [t ->]; [apply elem_of_cons; by left|]. simpl.
  apply IH. intros y u Hy. apply Hb, elem_of_cons. by right.
Qed.

Section divergence.
Context (crossword : Crossword).

(** With the overlap indices in range, [revise] returns; its answer is
    always [True]. *)
Lemma revise_returns x y domains Dx Dy ky kx :
  dict_get domains x = Some Dx → dict_get domains y = Some Dy →
  overlaps crossword (y, x) = Some (Some (ky, kx)) →
  in_range kx Dx → in_range ky Dy →
  ∃ Dx', revise crossword x y domains = Ret (true, dict_set domains x Dx') ∧
         Dx' ⊆ Dx.
Proof.
  intros HDx HDy Hov Hkx Hky.
  assert (∃ r, revise crossword x y domains = Ret r) as [[b d'] Hr].
  { unfold revise, overlaps_get, domains_get. rewrite HDx, Hov, HDy. simpl.
    destruct (for_each_returns Dy (revise_body x kx ky domains) []) as [aux ->].
    - intros domY aux HdomY. unfold revise_body, domains_get. rewrite HDx. simpl.
      destruct (comprehension_if_returns
                  (λ domX, cx <- str_index domX kx ;
                           cy <- str_index domY ky ;
                           Ret (bool_decide (cx = cy))) Dx) as [res ->].
      + intros domX HdomX. unfold str_index.
        destruct (str_index_lt _ _ (Hkx _ HdomX)) as [cx ->].
        destruct (str_index_lt _ _ (Hky _ HdomY)) as [cy ->]. simpl. by eauto.
      + simpl. by eauto.
    - simpl. rewrite dict_get_set_eq. simpl. by eauto. }
  pose proof Hr as (Dx0 & Dy0 & ky0 & kx0 & Dx' & HDx0 & _ & _ & _ & -> & -> & _ & Hsub)%revise_Ret_inv.
  exists Dx'. split; [done|]. by simplify_eq.
Qed.

Lemma in_range_node_consistent domains v D k :
  node_consistent domains → dict_get domains v = Some D →
  k < var_length v → in_range k D.
Proof. intros Hnc HD Hk w Hw. by rewrite (Hnc v D w). Qed.

Lemma covers_set domains x Dx' :
  covers crossword domains → covers crossword (dict_set domains x Dx').
Proof.
  intros Hcov v Hv. rewrite dict_get_set. case_decide; [by eauto|by apply Hcov].
Qed.

(** In such a puzzle a turn of the loop always leaves work behind. *)
Lemma ac3_body_goes_on x y quee domains :
  every_slot_crosses_two crossword →
  covers crossword domains → node_consistent domains →
  y ∈ variables crossword → x ∈ neighbors crossword y →
  ∃ quee' domains',
    ac3_body crossword (x, y) quee domains = Ret (inr (quee', domains')) ∧
    quee' ≠ [] ∧
    (∀ a b, (a, b) ∈ quee' →
       (a, b) ∈ quee ∨ (b ∈ variables crossword ∧ a ∈ neighbors crossword b)) ∧
    covers crossword domains' ∧ node_consistent domains'.
Proof.
  intros Hcyc Hcov Hnc Hy Hx.
  destruct (Hcyc y x Hy Hx) as (Hxv & Hyx & _ & ky & kx & Hov & Hky & Hkx).
  destruct (Hcyc x y Hxv Hyx) as (_ & _ & (z & Hz & Hzy) & _).
  destruct (Hcov x Hxv) as [Dx HDx]. destruct (Hcov y Hy) as [Dy HDy].
  destruct (revise_returns x y domains Dx Dy ky kx) as (Dx' & Hrev & Hsub);
    [done..|by eapply in_range_node_consistent|by eapply in_range_node_consistent|].
  unfold ac3_body. simpl. rewrite Hrev. simpl.
  unfold domains_get. rewrite dict_get_set_eq. simpl.
  unfold set_remove. rewrite decide_True by done. simpl.
  eexists _, _. split; [done|]. split_and!.
  - intros [_ Hnil%fmap_nil_inv]%app_eq_nil.
    assert (Hin : z ∈ filter (λ u, u ≠ y) (neighbors crossword x))
      by by apply list_elem_of_filter.
    rewrite Hnil in Hin. by apply elem_of_nil in Hin.
  - intros a b [?|(vecino & Heq & [_ Hvec]%list_elem_of_filter)%list_elem_of_fmap]%elem_of_app;
      [by left|right].
    injection Heq as -> ->.
    by destruct (Hcyc x vecino Hxv Hvec) as (_ & ? & _).
  - by apply covers_set.
  - eapply node_consistent_shrink; [|done]. by eapply domains_shrink_set.
Qed.

(** The worklist loop of [ac3] does not come to an end on such a puzzle,
    however much fuel it is given. *)
Lemma ac3_loop_diverges fuel quee domains :
  every_slot_crosses_two crossword →
  covers crossword domains → node_consistent domains →
  quee ≠ [] →
  (∀ a b, (a, b) ∈ quee → b ∈ variables crossword ∧ a ∈ neighbors crossword b) →
  ac3_loop crossword fuel quee domains = OutOfFuel.
Proof.
  intros Hcyc. revert quee domains.
  induction fuel as [|fuel IH]; intros [|[x y] quee] domains Hcov Hnc Hne Harcs;
    simpl; [done..|].
  destruct (Harcs x y) as [Hy Hx]; [apply elem_of_cons; by left|].
  destruct (ac3_body_goes_on x y quee domains)
    as (quee' & domains' & -> & Hne' & Harcs' & Hcov' & Hnc'); [done..|].
  simpl. apply IH; [done..|].
  intros a b [Hin|?]%Harcs'; [|done]. apply Harcs, elem_of_cons. by right.
Qed.
End divergence.

Lemma every_slot_crosses_twob_true (crossword : Crossword) :
  every_slot_crosses_twob crossword = true → every_slot_crosses_two crossword.
Proof.
  unfold every_slot_crosses_twob. rewrite forallb_forall. intros Hall a b Ha Hb.
  apply list_elem_of_In, Hall in Ha. rewrite forallb_forall in Ha.
  apply list_elem_of_In, Ha in Hb.
  rewrite !andb_true_iff, !bool_decide_eq_true in Hb.
  destruct Hb as [[[Hb Hab] Hfil] Hov]. split_and!; [done..| |].
  - destruct (filter (λ c, c ≠ b) (neighbors crossword a)) as [|c l] eqn:Hf; [done|].
    assert (Hc : c ∈ filter (λ c, c ≠ b) (neighbors crossword a))
      by (rewrite Hf; by left).
    apply list_elem_of_filter in Hc as [? ?]. by exists c.
  - destruct (overlaps crossword (a, b)) as [[[ka kb]|]|]; [|done..].
    rewrite andb_true_iff, !bool_decide_eq_true in Hov. by exists ka, kb.
Qed.

Lemma covers_init_enforced (crossword : Crossword) :
  covers crossword (enforce_node_consistency (init crossword)).
Proof.
  intros v Hv. apply dict_get_is_Some.
  by rewrite enforce_node_consistency_keys, keys_init.
Qed.

(** ** C5: termination of the worklist loop *)

(** C5 does not hold of the code: on the fully open 2 x 2 grid with the
    pool {AT, TO, AN, NO}, after node consistency, the loop of [ac3] is still
    running after any number of turns.  [revise] answers [True] whether or
    not it removed a word (it compares a length with a set), so every arc
    taken from the worklist puts one back. *)
Theorem ac3_runs_forever_on_square (fuel : nat) :
  ac3 square fuel None (enforce_node_consistency (init square)) = OutOfFuel.
Proof.
  apply ac3_loop_diverges.
  - apply every_slot_crosses_twob_true. vm_compute. reflexivity.
  - apply covers_init_enforced.
  - apply enforce_node_consistency_node_consistent. compute_done.
  - vm_compute. discriminate.
  - by intros a b ?%elem_of_initial_arcs.
Qed.

(** ** Running the solver on the example puzzles *)

(** Replace the left-hand side of an equation by its value. *)
Ltac run_lhs :=
  match goal with
  | |- ?l = _ => let v := eval vm_compute in l in change l with v
  end.

(** A statement about each list of a given list of lists. *)
Ltac each := repeat (apply Forall_cons_2 || apply Forall_nil_2).

(** ** C4: the answer of [ac3] *)

(** [ac3] has no way to answer [False]: the test that guards
    [return False] compares a set with the number 0. *)
Lemma ac3_never_answers_False (crossword : Crossword) fuel arcs domains b domains' :
  ac3 crossword fuel arcs domains = Ret (b, domains') → b = true.
Proof.
  unfold ac3. generalize (initial_arcs crossword). revert domains.
  induction fuel as [|fuel IH]; intros domains [|q quee]; simpl;
    [by intros [= <- _]|done|by intros [= <- _]|].
  intros (r & (d1 & vecinos & _ & _ & ->)%ac3_body_inv & Hloop)%bind_Ret_inv.
  by eapply IH.
Qed.

(** C4 does not hold of the code: in the puzzle [corner] (pool {CAT, DOG},
    two slots sharing their first cell), in whichever order the slots are
    enumerated, propagation empties the domains, which held two words each,
    and [ac3] goes on to the end of the worklist and answers [True]. *)
Theorem ac3_answers_True_with_emptied_domains (fuel : nat) :
  dict_get (enforce_node_consistency (init corner)) corner_y = Some ["CAT"; "DOG"] ∧
  Forall
    (λ vars,
       let crossword := enumerated corner vars in
       ∃ domains',
         ac3 crossword (2 + fuel) None (enforce_node_consistency (init crossword))
           = Ret (true, domains') ∧
         dict_get domains' corner_x = Some [] ∧
         dict_get domains' corner_y = Some [])
    (permutations [corner_x; corner_y]).
Proof.
  split; [reflexivity|].
  each; eexists; (split_and!; [destruct fuel; run_lhs; reflexivity|reflexivity..]).
Qed.

(** ** C7: word lengths in [consistent] *)

(** C7 does not hold of the code: in the puzzle [two_slots] the down slot,
    of length 3, is given the two-letter word AB, and [consistent] answers
    [True].  The branch for a word of the wrong length assigns [False] to a
    name, [consistent], that is not the flag [consisten] the method
    returns. *)
Theorem consistent_accepts_wrong_length :
  len_str "AB" ≠ var_length slot_B ∧
  consistent two_slots [(slot_A, "CAT"); (slot_B, "AB")] = Ret true.
Proof. split; [by vm_compute|reflexivity]. Qed.

(** ** C8: the choice of the next slot *)

(** C8 does not hold of the code: in the puzzle [fork], after node
    consistency, the slot [fork_x] has one candidate word and the other two
    slots have two; with nothing assigned, and in whichever order the slots
    are enumerated, [select_unassigned_variable] returns [fork_y], the slot
    with the most neighbours, not the slot with the fewest candidates. *)
Theorem select_returns_highest_degree :
  Forall
    (λ vars,
       let crossword := enumerated fork vars in
       let domains := enforce_node_consistency (init crossword) in
       dict_get domains fork_x = Some ["sun"] ∧
       dict_get domains fork_y = Some ["star"; "area"] ∧
       dict_get domains fork_z = Some ["star"; "area"] ∧
       select_unassigned_variable crossword [] domains = Ret fork_y)
    (permutations [fork_x; fork_y; fork_z]).
Proof.
  each; split_and!; reflexivity.
Qed.

(** ** C2 and C3: undoing tentative assignments in [backtrack] *)

(** After a consistent tentative assignment, [backtrack] returns whatever
    the recursive call returned, [None] included: the remaining values are
    not tried and [variable] stays in the dictionary. *)
Lemma backtrack_for_gives_up (crossword : Crossword) rec variable value vals
    assignment domains a1 d1 :
  consistent crossword (dict_set assignment variable value) = Ret true →
  rec (dict_set assignment variable value) domains = Ret (None, a1, d1) →
  backtrack_for crossword rec variable (value :: vals) assignment domains
  = Ret (None, a1, d1).
Proof. intros Hc Hrec. simpl. rewrite Hc. simpl. by rewrite Hrec. Qed.

(** C2 does not hold of the code: in the puzzle [mixed_corner] (pool
    {ab, cde}), after node consistency, [backtrack] called on the empty
    assignment returns [None] and leaves one entry in the dictionary, in
    whichever order the slots are enumerated.  The first slot takes its only
    word, the recursive call fails on the other slot, and that failure is
    returned without [assignment.pop(variable)]. *)
Theorem backtrack_leaves_entry_on_failure (fuel : nat) :
  Forall
    (λ vars,
       let crossword := enumerated mixed_corner vars in
       ∃ a' domains',
         backtrack crossword (2 + fuel) [] (enforce_node_consistency (init crossword))
           = Ret (None, a', domains') ∧
         a' ≠ [])
    (permutations [short_x; long_y]).
Proof.
  each; eexists _, _; (split; [run_lhs; reflexivity|done]).
Qed.

(** C3 does not hold of the code: in the puzzle [bridge], after node
    consistency, the across slot has the candidates aba and cbc, in this
    order.  In whichever order the slots are enumerated, [backtrack]
    assigns aba, which is consistent; the recursive call finds no word for
    a crossing slot and returns [None]; [backtrack] then returns [None] at
    once, with aba still assigned, although the next candidate, cbc,
    completes to an assignment that [assignment_complete] accepts. *)
Theorem backtrack_stops_at_first_failed_candidate (fuel : nat) :
  assignment_complete bridge
    [(bridge_x, "cbc"); (bridge_y, "cx"); (bridge_z, "cx")] = Ret true ∧
  Forall
    (λ vars,
       let crossword := enumerated bridge vars in
       let domains := enforce_node_consistency (init crossword) in
       order_domain_values crossword bridge_x [] domains
         = Ret (Some ["aba"; "cbc"], domains) ∧
       consistent crossword [(bridge_x, "aba")] = Ret true ∧
       backtrack crossword (2 + fuel) [] domains
         = Ret (None, [(bridge_x, "aba")], domains))
    (permutations [bridge_x; bridge_y; bridge_z]).
Proof. split; [reflexivity|]. each; split_and!; reflexivity. Qed.

(** * Further properties of the solver *)

(** ** Node consistency *)

Lemma dict_set_middle {K V : Type} `{EqDecision K} (pre rest : dict K V) (k : K) (v v' : V) :
  k ∉ keys pre →
  dict_set (pre ++ (k, v) :: rest) k v' = pre ++ (k, v') :: rest.
Proof.
  induction pre as [|[k0 v0] pre IH]; simpl.
  - intros _. by rewrite decide_True.
  - rewrite not_elem_of_cons. intros [Hne Hnin].
    rewrite decide_False by done. by rewrite IH.
Qed.

Lemma enforce_fold_map (pre items : Domains) :
  NoDup (keys (pre ++ items)) →
  fold_left (λ (doms : Domains) '(var, domain),
               dict_set doms var (fitting var domain)) items (pre ++ items)
  = pre ++ map (λ '(var, domain), (var, fitting var domain)) items.
Proof.
  revert pre. induction items as [|[k D] items IH]; intros pre Hnd; simpl; [done|].
  assert (Hk : k ∉ keys pre).
  { unfold keys in *. rewrite fmap_app in Hnd. simpl in Hnd.
    apply NoDup_app in Hnd as (_ & Hdisj & _). intros Hin.
    apply (Hdisj k Hin). by left. }
  rewrite dict_set_middle by done.
  rewrite (cons_middle _ pre items), app_assoc. rewrite IH.
  - by rewrite <- app_assoc.
  - rewrite <- app_assoc. simpl. unfold keys in *.
    rewrite fmap_app in *. done.
Qed.

(** On a dictionary, [enforce_node_consistency] rewrites each value in
    place. *)
Lemma enforce_node_consistency_map (domains : Domains) :
  NoDup (keys domains) →
  enforce_node_consistency domains
  = map (λ '(var, domain), (var, fitting var domain)) domains.
Proof. intros Hnd. by apply (enforce_fold_map [] domains). Qed.

Lemma remove_dups_NoDup {A : Type} `{EqDecision A} (l : list A) :
  NoDup l → remove_dups l = l.
Proof.
  induction 1 as [|x l Hx Hnd IH]; simpl; [done|].
  destruct (decide_rel elem_of x l); [done|]. by rewrite IH.
Qed.

Lemma filter_Forall_id {A : Type} (P : A → Prop) `{∀ x, Decision (P x)} (l : list A) :
  Forall P l → filter P l = l.
Proof.
  induction 1 as [|x l Hx Hl IH]; [done|].
  rewrite filter_cons, decide_True by done. by rewrite IH.
Qed.

Lemma fitting_idemp (var : Var) (domain : list word) :
  fitting var (fitting var domain) = fitting var domain.
Proof.
  unfold fitting at 1. rewrite filter_Forall_id.
  - apply remove_dups_NoDup. apply NoDup_remove_dups.
  - apply Forall_forall. by intros w [? _]%elem_of_fitting.
Qed.

Lemma NoDup_fitting (var : Var) (domain : list word) : NoDup (fitting var domain).
Proof. apply NoDup_remove_dups. Qed.

(** X1: [enforce_node_consistency] keeps the keys of the domain map and
    replaces the domain of each slot by a duplicate-free set holding exactly
    the words of the old domain whose length is the length of the slot. *)
Theorem enforce_node_consistency_exact (domains : Domains) :
  NoDup (keys domains) →
  keys (enforce_node_consistency domains) = keys domains ∧
  ∀ v D, dict_get domains v = Some D →
    ∃ D', dict_get (enforce_node_consistency domains) v = Some D' ∧
          NoDup D' ∧
          ∀ w, w ∈ D' ↔ w ∈ D ∧ len_str w = var_length v.
Proof.
  intros Hnd. split; [apply enforce_node_consistency_keys|].
  intros v D HD. exists (fitting v D). split_and!.
  - by rewrite enforce_node_consistency_get, HD.
  - apply NoDup_fitting.
  - intros w. rewrite elem_of_fitting. tauto.
Qed.

Lemma enforce_node_consistency_exact_witness :
  keys (enforce_node_consistency (init fork)) = keys (init fork) ∧
  ∀ v D, dict_get (init fork) v = Some D →
    ∃ D', dict_get (enforce_node_consistency (init fork)) v = Some D' ∧
          NoDup D' ∧
          ∀ w, w ∈ D' ↔ w ∈ D ∧ len_str w = var_length v.
Proof. apply (enforce_node_consistency_exact (init fork)). compute_done. Defined.

(** X2: [enforce_node_consistency] is idempotent: a second pass leaves the
    domain map as the first pass made it. *)
Theorem enforce_node_consistency_idempotent (domains : Domains) :
  NoDup (keys domains) →
  enforce_node_consistency (enforce_node_consistency domains)
  = enforce_node_consistency domains.
Proof.
  intros Hnd.
  rewrite (enforce_node_consistency_map (enforce_node_consistency domains))
    by by rewrite enforce_node_consistency_keys.
  rewrite enforce_node_consistency_map by done.
  rewrite <- list_fmap_compose. apply list_fmap_ext.
  intros i [v D] _. simpl. by rewrite fitting_idemp.
Qed.

Lemma enforce_node_consistency_idempotent_witness :
  enforce_node_consistency (enforce_node_consistency (init fork))
  = enforce_node_consistency (init fork).
Proof. apply (enforce_node_consistency_idempotent (init fork)). compute_done. Defined.

Lemma dict_get_init (crossword : Crossword) (v : Var) :
  dict_get (init crossword) v
  = if decide (v ∈ variables crossword) then Some (words crossword) else None.
Proof.
  unfold init. induction (variables crossword) as [|u l IH]; simpl; [done|].
  destruct (decide (v = u)) as [->|Hne].
  - rewrite decide_True; [done|by left].
  - rewrite IH. destruct (decide (v ∈ l)) as [Hl|Hl].
    + rewrite decide_True; [done|by right].
    + rewrite decide_False; [done|]. by intros [?|?]%elem_of_cons.
Qed.

(** X3: after construction and node consistency, the domain of every slot
    of the puzzle holds exactly the words of the pool that have the length
    of the slot, and nothing that is not a slot of the puzzle has a
    domain. *)
Theorem init_then_node_consistency (crossword : Crossword) (v : Var) :
  NoDup (variables crossword) →
  (v ∈ variables crossword →
     ∃ D, dict_get (enforce_node_consistency (init crossword)) v = Some D ∧
          ∀ w, w ∈ D ↔ w ∈ words crossword ∧ len_str w = var_length v) ∧
  (v ∉ variables crossword →
     dict_get (enforce_node_consistency (init crossword)) v = None).
Proof.
  intros Hnd.
  rewrite enforce_node_consistency_get by by rewrite keys_init.
  rewrite dict_get_init. split; intros Hv.
  - rewrite decide_True by done. simpl. eexists; split; [done|].
    intros w. rewrite elem_of_fitting. tauto.
  - by rewrite decide_False.
Qed.

Lemma init_then_node_consistency_witness :
  (fork_x ∈ variables fork →
     ∃ D, dict_get (enforce_node_consistency (init fork)) fork_x = Some D ∧
          ∀ w, w ∈ D ↔ w ∈ words fork ∧ len_str w = var_length fork_x) ∧
  (fork_x ∉ variables fork →
     dict_get (enforce_node_consistency (init fork)) fork_x = None).
Proof. apply (init_then_node_consistency fork fork_x). compute_done. Defined.

(** ** More on [revise] *)

Lemma bind_OutOfFuel_inv {A B : Type} (m : result A) (f : A → result B) :
  bind m f = OutOfFuel → m = OutOfFuel ∨ ∃ a, m = Ret a ∧ f a = OutOfFuel.
Proof. destruct m; simpl; [intros ?; right; by eauto|done|by left]. Qed.

Lemma for_each_OutOfFuel_inv {A S : Type} (l : list A) (body : A → S → result S) (s : S) :
  for_each l body s = OutOfFuel → ∃ x t, x ∈ l ∧ body x t = OutOfFuel.
Proof.
  revert s. induction l as [|x l IH]; simpl; intros s; [done|].
  intros [Hx|(t & _ & (y & u & Hy & Hu)%IH)]%bind_OutOfFuel_inv.
  - exists x, s. split; [apply elem_of_cons; by left|done].
  - exists y, u. split; [apply elem_of_cons; by right|done].
Qed.

Lemma comprehension_if_OutOfFuel_inv {A : Type} (cond : A → result bool) (l : list A) :
  comprehension_if cond l = OutOfFuel → ∃ x, x ∈ l ∧ cond x = OutOfFuel.
Proof.
  induction l as [|x l IH]; simpl; [done|].
  intros [Hx|(b & _ & [(y & Hy & Hc)%IH|(r & _ & [=])]%bind_OutOfFuel_inv)]%bind_OutOfFuel_inv.
  - exists x. split; [apply elem_of_cons; by left|done].
  - exists y. split; [apply elem_of_cons; by right|done].
Qed.

Lemma for_each_Ret_all {A S : Type} (l : list A) (body : A → S → result S) (s s' : S) :
  for_each l body s = Ret s' → ∀ x, x ∈ l → ∃ t t', body x t = Ret t'.
Proof.
  revert s. induction l as [|x l IH]; simpl; intros s Hl y Hy.
  - by apply elem_of_nil in Hy.
  - apply bind_Ret_inv in Hl as (t & Ht & Hl).
    apply elem_of_cons in Hy as [->|Hy]; [by eauto|by eapply IH].
Qed.

Lemma comprehension_if_Ret_all {A : Type} (cond : A → result bool) (l r : list A) :
  comprehension_if cond l = Ret r → ∀ x, x ∈ l → ∃ b, cond x = Ret b.
Proof.
  revert r. induction l as [|x l IH]; simpl; intros r Hl y Hy.
  - by apply elem_of_nil in Hy.
  - apply bind_Ret_inv in Hl as (b & Hb & (r' & Hr' & _)%bind_Ret_inv).
    apply elem_of_cons in Hy as [->|Hy]; [by eauto|by eapply IH].
Qed.

Lemma str_index_Ret_lt (s : word) (k : nat) (c : ascii) :
  str_index s k = Ret c → k < len_str s.
Proof.
  unfold str_index, len_str. revert k.
  induction s as [|a s IH]; simpl; intros k; [done|].
  destruct k as [|k]; [lia|]. intros Hk%IH. lia.
Qed.

Section revise_more.
Context (crossword : Crossword).
Implicit Types (x y : Var) (domains : Domains).

(** The test of [revise], run on a word too short for its index, raises
    [IndexError]; otherwise it answers. *)
Lemma revise_test_outcome kx ky (domX domY : word) :
  (kx < len_str domX ∧ ky < len_str domY ∧
   ∃ b, (cx <- str_index domX kx ; cy <- str_index domY ky ;
         Ret (bool_decide (cx = cy))) = Ret b) ∨
  ((¬ kx < len_str domX ∨ ¬ ky < len_str domY) ∧
   (cx <- str_index domX kx ; cy <- str_index domY ky ;
    Ret (bool_decide (cx = cy))) = Raise IndexError_string).
Proof.
  unfold str_index.
  destruct (String.get kx domX) as [cx|] eqn:Hx; simpl.
  - destruct (String.get ky domY) as [cy|] eqn:Hy; simpl.
    + left. split_and!; [by eapply str_index_Ret_lt; unfold str_index; rewrite Hx
                        |by eapply str_index_Ret_lt; unfold str_index; rewrite Hy
                        |by eauto].
    + right. split; [|done]. right. intros [c Hc]%str_index_lt. congruence.
  - right. split; [|done]. left. intros [c Hc]%str_index_lt. congruence.
Qed.

(** With its three lookups answered, [revise] either returns or raises
    [IndexError]. *)
Lemma revise_outcome x y domains Dx Dy ky kx :
  dict_get domains x = Some Dx → dict_get domains y = Some Dy →
  overlaps crossword (y, x) = Some (Some (ky, kx)) →
  (∃ Dx', revise crossword x y domains = Ret (true, dict_set domains x Dx')) ∨
  revise crossword x y domains = Raise IndexError_string.
Proof.
  intros HDx HDy Hov.
  destruct (revise crossword x y domains) as [[b d']|e|] eqn:Hrev.
  - left. apply revise_Ret_inv in Hrev as (?&?&?&?&Dx'&_&_&_&_&->&->&_). by eauto.
  - right. f_equal. revert Hrev.
    unfold revise, overlaps_get, domains_get. rewrite HDx, Hov, HDy. simpl.
    intros [(domY & aux & _ & Hbody)%for_each_Raise_inv|(aux & _ & Hrest)]%bind_Raise_inv.
    + unfold revise_body, domains_get in Hbody. rewrite HDx in Hbody. simpl in Hbody.
      apply bind_Raise_inv in Hbody as [(domX & _ & Hc)%comprehension_if_Raise_inv|(res & _ & [=])].
      destruct (revise_test_outcome kx ky domX domY) as [(_ & _ & b & Hb)|[_ Hb]];
        rewrite Hb in Hc; [done|by injection Hc].
    + by rewrite dict_get_set_eq in Hrest.
  - exfalso. revert Hrev.
    unfold revise, overlaps_get, domains_get. rewrite HDx, Hov, HDy. simpl.
    intros [(domY & aux & _ & Hbody)%for_each_OutOfFuel_inv|(aux & _ & Hrest)]%bind_OutOfFuel_inv.
    + unfold revise_body, domains_get in Hbody. rewrite HDx in Hbody. simpl in Hbody.
      apply bind_OutOfFuel_inv in Hbody as [(domX & _ & Hc)%comprehension_if_OutOfFuel_inv|(res & _ & [=])].
      destruct (revise_test_outcome kx ky domX domY) as [(_ & _ & b & Hb)|[_ Hb]];
        rewrite Hb in Hc; done.
    + by rewrite dict_get_set_eq in Hrest.
Qed.

(** When [revise] returns and both domains have a word, every word had
    the character the overlap asks for. *)
Lemma revise_Ret_in_range x y domains Dx Dy ky kx r :
  dict_get domains x = Some Dx → dict_get domains y = Some Dy →
  overlaps crossword (y, x) = Some (Some (ky, kx)) →
  Dx ≠ [] → Dy ≠ [] →
  revise crossword x y domains = Ret r →
  in_range kx Dx ∧ in_range ky Dy.
Proof.
  intros HDx HDy Hov HneX HneY.
  unfold revise, overlaps_get, domains_get. rewrite HDx, Hov, HDy. simpl.
  intros (aux & Hloop & _)%bind_Ret_inv.
  assert (Hall : ∀ domY domX, domY ∈ Dy → domX ∈ Dx →
            kx < len_str domX ∧ ky < len_str domY).
  { intros domY domX HdomY HdomX.
    destruct (for_each_Ret_all _ _ _ _ Hloop domY HdomY) as (t & t' & Hbody).
    unfold revise_body, domains_get in Hbody. rewrite HDx in Hbody. simpl in Hbody.
    apply bind_Ret_inv in Hbody as (res & Hres & _).
    destruct (comprehension_if_Ret_all _ _ _ Hres domX HdomX) as [b Hb].
    destruct (revise_test_outcome kx ky domX domY) as [(? & ? & _)|[_ Hc]]; [done|].
    by rewrite Hc in Hb. }
  destruct Dx as [|domX0 Dx']; [done|]. destruct Dy as [|domY0 Dy']; [done|].
  split; intros w Hw.
  - apply (Hall domY0 w); [by left|done].
  - apply (Hall w domX0); [done|by left].
Qed.
End revise_more.

(** X4: a call of [revise x y] that returns has answered [True], has left
    the keys of the domain map as they were, and has changed the domain of
    no slot other than [x]. *)
Theorem revise_touches_only_x (crossword : Crossword) (x y : Var)
    (domains : Domains) (b : bool) (domains' : Domains) :
  revise crossword x y domains = Ret (b, domains') →
  b = true ∧
  keys domains' = keys domains ∧
  ∀ z, z ≠ x → dict_get domains' z = dict_get domains z.
Proof.
  intros (Dx & Dy & ky & kx & Dx' & HDx & _ & _ & _ & -> & -> & _)%revise_Ret_inv.
  split_and!; [done| |].
  - apply keys_dict_set_in. by eapply dict_get_Some_key.
  - intros z Hz. by apply dict_get_set_ne.
Qed.

Lemma revise_touches_only_x_witness :
  true = true ∧
  keys [(slot_A, ["CAT"; "CAR"]); (slot_B, ["CAT"; "CAR"; "TEA"; "ART"])]
    = keys (enforce_node_consistency (init two_slots)) ∧
  ∀ z, z ≠ slot_A →
    dict_get [(slot_A, ["CAT"; "CAR"]); (slot_B, ["CAT"; "CAR"; "TEA"; "ART"])] z
    = dict_get (enforce_node_consistency (init two_slots)) z.
Proof.
  apply (revise_touches_only_x two_slots slot_A slot_B
           (enforce_node_consistency (init two_slots))).
  vm_compute. reflexivity.
Defined.

(** X5: the lookups of [revise x y], in the order it makes them: without a
    domain for [x] it raises [KeyError] for [x]; else, with the key
    [(y, x)] absent from the overlaps, [KeyError] for that key; else, with
    the overlap record [None] (slots that do not cross), [TypeError]; else,
    without a domain for [y], [KeyError] for [y]. *)
Theorem revise_lookup_errors (crossword : Crossword) (x y : Var) (domains : Domains) :
  (dict_get domains x = None →
   revise crossword x y domains = Raise (KeyError_domains x)) ∧
  (is_Some (dict_get domains x) → overlaps crossword (y, x) = None →
   revise crossword x y domains = Raise (KeyError_overlaps y x)) ∧
  (is_Some (dict_get domains x) → overlaps crossword (y, x) = Some None →
   revise crossword x y domains = Raise TypeError_NoneType) ∧
  (is_Some (dict_get domains x) →
   (∃ k, overlaps crossword (y, x) = Some (Some k)) →
   dict_get domains y = None →
   revise crossword x y domains = Raise (KeyError_domains y)).
Proof.
  unfold revise, overlaps_get, domains_get. split_and!.
  - by intros ->.
  - by intros [Dx ->] ->.
  - by intros [Dx ->] ->.
  - by intros [Dx ->] [[ky kx] ->] ->.
Qed.

Lemma revise_lookup_errors_witness :
  revise two_slots slot_A slot_A (init two_slots)
  = Raise (KeyError_overlaps slot_A slot_A) ∧
  revise two_slots slot_B slot_A [(slot_B, ["ART"])]
  = Raise (KeyError_domains slot_A).
Proof.
  split.
  - apply (revise_lookup_errors two_slots slot_A slot_A (init two_slots));
      [by eexists|reflexivity].
  - apply (revise_lookup_errors two_slots slot_B slot_A [(slot_B, ["ART"])]);
      [by eexists|by eexists|reflexivity].
Defined.

(** X6: bounds in [revise x y], the three lookups answered.  If one of the
    two domains is empty no character is read: [revise] returns and
    [domains[x]] is empty.  If both domains have a word, [revise] returns
    when every word of [domains[x]] and every word of [domains[y]] has a
    character at its overlap index, and raises [IndexError] when some word
    is too short. *)
Theorem revise_bounds (crossword : Crossword) (x y : Var) (domains : Domains)
    (Dx Dy : list word) (ky kx : nat) :
  dict_get domains x = Some Dx → dict_get domains y = Some Dy →
  overlaps crossword (y, x) = Some (Some (ky, kx)) →
  (Dx = [] ∨ Dy = [] →
   revise crossword x y domains = Ret (true, dict_set domains x [])) ∧
  (Dx ≠ [] → Dy ≠ [] →
   (in_range kx Dx ∧ in_range ky Dy ↔
    ∃ Dx', revise crossword x y domains = Ret (true, dict_set domains x Dx')) ∧
   (¬ (in_range kx Dx ∧ in_range ky Dy) ↔
    revise crossword x y domains = Raise IndexError_string)).
Proof.
  intros HDx HDy Hov. split.
  - intros Hempty. unfold revise, overlaps_get, domains_get.
    rewrite HDx, Hov, HDy. simpl.
    assert (Hloop : for_each Dy (revise_body x kx ky domains) [] = Ret []).
    { destruct Hempty as [-> | ->]; [|done].
      assert (Hbody : ∀ domY, revise_body x kx ky domains domY [] = Ret []).
      { intros domY. unfold revise_body, domains_get. rewrite HDx. simpl.
        try case_decide; reflexivity. }
      clear HDy. induction Dy as [|domY Dy IH]; simpl; [done|].
      by rewrite Hbody. }
    rewrite Hloop. simpl. by rewrite dict_get_set_eq.
  - intros HneX HneY.
    assert (Hiff : in_range kx Dx ∧ in_range ky Dy ↔
              ∃ Dx', revise crossword x y domains = Ret (true, dict_set domains x Dx')).
    { split.
      - intros [Hkx Hky].
        destruct (revise_returns crossword x y domains Dx Dy ky kx)
          as (Dx' & Hrev & _); by eauto.
      - intros [Dx' Hrev]. by eapply revise_Ret_in_range. }
    split; [done|]. rewrite Hiff.
    destruct (revise_outcome crossword x y domains Dx Dy ky kx) as [[Dx' Hr]|Hr];
      [done..| |]; rewrite Hr.
    + split; [intros Hn; exfalso; apply Hn; by eauto|done].
    + split; [done|]. by intros _ [Dx' ?].
Qed.

Lemma revise_bounds_witness :
  let domains := [(slot_A, ["CAT"; "AT"]); (slot_B, ["ART"])] in
  (["CAT"; "AT"] = [] ∨ ["ART"] = [] →
   revise two_slots slot_B slot_A domains = Ret (true, dict_set domains slot_B [])) ∧
  (["ART"] ≠ [] → ["CAT"; "AT"] ≠ [] →
   (in_range 0 ["ART"] ∧ in_range 1 ["CAT"; "AT"] ↔
    ∃ Dx', revise two_slots slot_B slot_A domains
             = Ret (true, dict_set domains slot_B Dx')) ∧
   (¬ (in_range 0 ["ART"] ∧ in_range 1 ["CAT"; "AT"]) ↔
    revise two_slots slot_B slot_A domains = Raise IndexError_string)).
Proof.
  intros domains.
  destruct (revise_bounds two_slots slot_B slot_A domains ["ART"] ["CAT"; "AT"] 1 0)
    as [Hempty Hboth]; [reflexivity..|].
  split; [|done]. intros [[=]|[=]].
Defined.

(** ** Well-formed puzzles *)

Lemma well_formedb_true (crossword : Crossword) :
  well_formedb crossword = true → well_formed crossword.
Proof.
  unfold well_formedb. rewrite andb_true_iff, bool_decide_eq_true, forallb_forall.
  intros [Hnd Hall]. split; [done|]. intros a b Ha Hb.
  apply list_elem_of_In, Hall in Ha. rewrite forallb_forall in Ha.
  apply list_elem_of_In, Ha in Hb.
  rewrite !andb_true_iff, !bool_decide_eq_true in Hb.
  destruct Hb as [[[Hb Hne] Hab] Hov]. split_and!; [done..|].
  destruct (overlaps crossword (a, b)) as [[[ka kb]|]|]; [|done..].
  rewrite !andb_true_iff, !bool_decide_eq_true in Hov.
  destruct Hov as [[? ?] ?]. by exists ka, kb.
Qed.

Lemma dict_get_elem {K V : Type} `{EqDecision K} (d : dict K V) (k : K) (v : V) :
  NoDup (keys d) → (k, v) ∈ d → dict_get d k = Some v.
Proof.
  induction d as [|[k' v'] d IH]; simpl.
  - intros _ Hin. by apply elem_of_nil in Hin.
  - intros Hnd [[= -> ->]|Hin]%elem_of_cons.
    + by rewrite decide_True.
    + apply NoDup_cons in Hnd as [Hk' Hnd].
      rewrite decide_False; [by apply IH|].
      intros ->. apply Hk'. apply list_elem_of_fmap. by exists (k', v).
Qed.

Lemma words_fit_get (assignment : Assignment) (var : Var) (wd : word) :
  words_fit assignment → dict_get assignment var = Some wd →
  len_str wd = var_length var.
Proof.
  intros Hfit Hget%dict_get_Some_elem.
  by apply (proj1 (Forall_forall _ _) Hfit (var, wd)).
Qed.

(** ** More on [consistent] *)

Lemma for_each_all_true {A : Type} (l : list A) (body : A → bool → result bool) :
  (∀ x, x ∈ l → body x true = Ret true) → for_each l body true = Ret true.
Proof.
  induction l as [|x l IH]; simpl; intros Hb; [done|].
  rewrite Hb by (apply elem_of_cons; by left). simpl.
  apply IH. intros y Hy. apply Hb, elem_of_cons. by right.
Qed.

Section consistent_more.
Context (crossword : Crossword).

(** The comparison [consistent] makes for the slot [var] and its assigned
    neighbour [vecino]. *)
Lemma consistent_compare (assignment : Assignment) var wd vecino other k0 k1
    (consisten : bool) :
  overlaps crossword (var, vecino) = Some (Some (k0, k1)) →
  dict_get assignment vecino = Some other →
  k0 < len_str wd → k1 < len_str other →
  ∃ c0 c1, String.get k0 wd = Some c0 ∧ String.get k1 other = Some c1 ∧
    (overlap <- overlaps_get crossword var vecino ;
     k0 <- item0 overlap ;
     c0 <- str_index wd k0 ;
     other <- assignment_get assignment vecino ;
     k1 <- item1 overlap ;
     c1 <- str_index other k1 ;
     Ret (if decide (c0 ≠ c1) then false else consisten))
    = Ret (if decide (c0 ≠ c1) then false else consisten).
Proof.
  intros Hov Hother [c0 Hc0]%str_index_lt [c1 Hc1]%str_index_lt.
  exists c0, c1. split_and!; [done..|].
  unfold overlaps_get, assignment_get, str_index.
  rewrite Hov. simpl. rewrite Hc0. simpl. rewrite Hother. simpl. by rewrite Hc1.
Qed.
End consistent_more.

(** X7: on a well-formed puzzle, for an assignment to slots of the puzzle
    in which every word has the length of its slot, [consistent] returns,
    and it answers [True] exactly when every assigned slot and every
    assigned neighbour of it carry the same character at their overlap. *)
Theorem consistent_decides_agreement (crossword : Crossword) (assignment : Assignment) :
  well_formed crossword →
  NoDup (keys assignment) →
  keys assignment ⊆ variables crossword →
  words_fit assignment →
  ∃ b, consistent crossword assignment = Ret b ∧
    (b = true ↔
     ∀ var n wd other k0 k1,
       dict_get assignment var = Some wd → n ∈ neighbors crossword var →
       dict_get assignment n = Some other →
       overlaps crossword (var, n) = Some (Some (k0, k1)) →
       agree wd k0 other k1).
Proof.
  intros [_ Hwf] Hnd Hkeys Hfit.
  assert (Hcmp : ∀ var wd vecino (s : bool),
            (var, wd) ∈ assignment →
            vecino ∈ set_intersection (set_of_list (neighbors crossword var))
                                      (set_of_list (keys assignment)) →
            ∃ k0 k1 other c0 c1,
              overlaps crossword (var, vecino) = Some (Some (k0, k1)) ∧
              dict_get assignment vecino = Some other ∧
              String.get k0 wd = Some c0 ∧ String.get k1 other = Some c1 ∧
              (overlap <- overlaps_get crossword var vecino ;
               k0 <- item0 overlap ;
               c0 <- str_index wd k0 ;
               other <- assignment_get assignment vecino ;
               k1 <- item1 overlap ;
               c1 <- str_index other k1 ;
               Ret (if decide (c0 ≠ c1) then false else s))
              = Ret (if decide (c0 ≠ c1) then false else s)).
  { intros var wd vecino s Hin Hvec.
    rewrite elem_of_set_intersection, !elem_of_set_of_list in Hvec.
    destruct Hvec as [Hvec Hkey].
    pose proof (dict_get_elem _ _ _ Hnd Hin) as Hwd.
    assert (Hvar : var ∈ variables crossword).
    { apply Hkeys. by eapply dict_get_Some_key. }
    destruct (Hwf var vecino Hvar Hvec) as (_ & _ & _ & k0 & k1 & Hov & _ & Hk0 & Hk1).
    apply dict_get_is_Some in Hkey as [other Hother].
    destruct (consistent_compare crossword assignment var wd vecino other k0 k1 s)
      as (c0 & c1 & Hc0 & Hc1 & Heq); [done..| | |].
    - by rewrite (words_fit_get _ _ _ Hfit Hwd).
    - by rewrite (words_fit_get _ _ _ Hfit Hother).
    - by exists k0, k1, other, c0, c1. }
  assert (Hret : ∃ b, consistent crossword assignment = Ret b).
  { unfold consistent. apply for_each_returns. intros [var wd] t Hin.
    case_decide; [|by eauto].
    apply for_each_returns. intros vecino s Hvec.
    destruct (Hcmp var wd vecino s Hin Hvec) as (?&?&?&?&?&_&_&_&_&->). by eauto. }
  destruct Hret as [b Hb]. exists b. split; [done|]. split.
  - intros -> var n wd other k0 k1 Hwd Hn Hother Hov.
    destruct (consistent_true_inv crossword assignment Hb var wd) with (vecino := n)
      as (k0' & k1' & other' & Hov' & Hother' & Hagree).
    + by apply dict_get_Some_elem.
    + symmetry. by eapply words_fit_get.
    + done.
    + by eapply dict_get_Some_key.
    + by simplify_eq.
  - intros Hagree. enough (consistent crossword assignment = Ret true) by congruence.
    unfold consistent. apply for_each_all_true. intros [var wd] Hin.
    case_decide; [|done]. apply for_each_all_true. intros vecino Hvec.
    destruct (Hcmp var wd vecino true Hin Hvec)
      as (k0 & k1 & other & c0 & c1 & Hov & Hother & Hc0 & Hc1 & ->).
    rewrite elem_of_set_intersection, !elem_of_set_of_list in Hvec.
    destruct (Hagree var vecino wd other k0 k1) as (c & Hc & Hc');
      [by apply dict_get_elem|by apply Hvec|done..|].
    rewrite decide_False; [done|]. intros Hne. apply Hne. congruence.
Qed.

Lemma consistent_decides_agreement_witness :
  let assignment := [(slot_A, "CAT"); (slot_B, "TEA")] in
  ∃ b, consistent two_slots assignment = Ret b ∧
    (b = true ↔
     ∀ var n wd other k0 k1,
       dict_get assignment var = Some wd → n ∈ neighbors two_slots var →
       dict_get assignment n = Some other →
       overlaps two_slots (var, n) = Some (Some (k0, k1)) →
       agree wd k0 other k1).
Proof.
  apply (consistent_decides_agreement two_slots [(slot_A, "CAT"); (slot_B, "TEA")]).
  - apply well_formedb_true. vm_compute. reflexivity.
  - compute_done.
  - compute_done.
  - compute_done.
Defined.

(** ** More on [select_unassigned_variable] *)

Lemma py_max_spec (l : list nat) :
  l ≠ [] → ∃ m, py_max l = Ret m ∧ m ∈ l ∧ ∀ n, n ∈ l → (n ≤ m)%nat.
Proof.
  destruct l as [|x l]; [done|]. intros _. simpl. eexists; split; [done|].
  induction l as [|y l [IHin IHle]]; simpl.
  - split; [by left|]. intros n [->|[]%elem_of_nil]%elem_of_cons. done.
  - split.
    + destruct (Nat.max_spec y (foldr Nat.max x l)) as [[_ ->]|[_ ->]].
      * apply elem_of_cons in IHin as [->|?]; [by left|by right; right].
      * right. by left.
    + intros n [->|[->|Hn]%elem_of_cons]%elem_of_cons.
      * etrans; [apply IHle; by left|]. apply Nat.le_max_r.
      * apply Nat.le_max_l.
      * etrans; [apply IHle; by right|]. apply Nat.le_max_r.
Qed.

(** [keep_max] keeps the entries whose value is the largest. *)
Lemma keep_max_spec (d : dict Var nat) :
  d ≠ [] →
  ∃ m d', keep_max d = Ret d' ∧ d' ≠ [] ∧
    (∀ k n, (k, n) ∈ d → (n ≤ m)%nat) ∧
    (∀ k n, (k, n) ∈ d' ↔ (k, n) ∈ d ∧ n = m).
Proof.
  intros Hne.
  destruct (py_max_spec (values d)) as (m & Hm & Hin & Hle).
  { destruct d; [done|]. done. }
  exists m, (filter (λ p, p.2 = m) d). split_and!.
  - unfold keep_max. apply comprehension_if_filter.
    intros [k n] _. by rewrite Hm.
  - apply list_elem_of_fmap in Hin as ([k n] & Heq & Hkn). simpl in Heq. subst n.
    intros Hnil. assert (Hf : (k, m) ∈ filter (λ p, p.2 = m) d)
      by by apply list_elem_of_filter.
    rewrite Hnil in Hf. by apply elem_of_nil in Hf.
  - intros k n Hkn. apply Hle. apply list_elem_of_fmap. by exists (k, n).
  - intros k n. rewrite list_elem_of_filter. simpl. tauto.
Qed.

Lemma list_pop_nonempty {A : Type} (l : list A) :
  l ≠ [] → ∃ x, list_pop l = Ret x ∧ x ∈ l.
Proof.
  intros Hne. unfold list_pop. destruct (last l) as [x|] eqn:Hl.
  - exists x. split; [done|]. apply last_Some in Hl as [l' ->].
    apply elem_of_app; right. by left.
  - by apply last_None in Hl.
Qed.

(** A dictionary filled key by key from a list of distinct keys. *)
Lemma fold_dict_set_fresh {V : Type} (f : Var → V) (l : list Var) (acc : dict Var V) :
  NoDup l → (∀ x, x ∈ l → x ∉ keys acc) →
  fold_left (λ d x, dict_set d x (f x)) l acc = acc ++ map (λ x, (x, f x)) l.
Proof.
  revert acc. induction l as [|x l IH]; simpl; intros acc Hnd Hfresh.
  - by rewrite app_nil_r.
  - apply NoDup_cons in Hnd as [Hx Hnd].
    rewrite dict_set_fresh by (apply Hfresh; by left).
    rewrite IH; [by rewrite <- app_assoc|done|].
    intros y Hy. unfold keys. rewrite fmap_app, not_elem_of_app. split.
    + apply Hfresh. by right.
    + simpl. intros [->|[]%elem_of_nil]%elem_of_cons. done.
Qed.

Lemma for_each_dict_set_fresh (domains : Domains) (l : list Var) (acc : dict Var nat) :
  NoDup l → (∀ x, x ∈ l → x ∉ keys acc) →
  (∀ x, x ∈ l → is_Some (dict_get domains x)) →
  for_each l
    (λ x (d : dict Var nat),
       Dx <- domains_get domains x ; Ret (dict_set d x (length Dx))) acc
  = Ret (acc ++ map (λ x, (x, length (default [] (dict_get domains x)))) l).
Proof.
  revert acc. induction l as [|x l IH]; simpl; intros acc Hnd Hfresh Hdom.
  - by rewrite app_nil_r.
  - apply NoDup_cons in Hnd as [Hx Hnd].
    destruct (Hdom x) as [Dx HDx]; [by left|].
    unfold domains_get at 1. rewrite HDx. simpl.
    rewrite dict_set_fresh by (apply Hfresh; by left).
    rewrite IH; [by rewrite <- app_assoc|done| |].
    + intros y Hy. unfold keys. rewrite fmap_app, not_elem_of_app. split.
      * apply Hfresh. by right.
      * simpl. intros [->|[]%elem_of_nil]%elem_of_cons. done.
    + intros y Hy. apply Hdom. by right.
Qed.

Lemma keys_map_pair {V : Type} (f : Var → V) (l : list Var) :
  keys (map (λ x, (x, f x)) l) = l.
Proof. unfold keys. induction l as [|x l IH]; simpl; [done|]. by f_equal. Qed.

Section select_more.
Context (crossword : Crossword).

(** The slots that have no word yet, for an assignment to slots of the
    puzzle. *)
Lemma unusedVar_spec (assignment : Assignment) :
  keys assignment ⊆ variables crossword →
  set_symmetric_difference (variables crossword) (set_of_list (keys assignment))
  = list_difference (variables crossword) (set_of_list (keys assignment)).
Proof.
  intros Hkeys. unfold set_symmetric_difference.
  assert (Hnil : list_difference (set_of_list (keys assignment)) (variables crossword) = []).
  { apply elem_of_nil_inv. intros x [Hx Hnx]%list_elem_of_difference.
    apply Hnx, Hkeys. by apply elem_of_set_of_list. }
  by rewrite Hnil, app_nil_r.
Qed.

Lemma elem_of_unused (assignment : Assignment) (u : Var) :
  u ∈ list_difference (variables crossword) (set_of_list (keys assignment)) ↔
  u ∈ variables crossword ∧ u ∉ keys assignment.
Proof. by rewrite list_elem_of_difference, elem_of_set_of_list. Qed.
End select_more.

(** X8: on an assignment to slots of the puzzle that leaves a slot
    without a word, every slot having a domain, [select_unassigned_variable]
    returns, and what it returns is a slot without a word whose number of
    neighbours is the largest among the slots without a word.  The sizes of
    the domains play no part. *)
Theorem select_returns_unassigned_of_highest_degree
    (crossword : Crossword) (assignment : Assignment) (domains : Domains) :
  NoDup (variables crossword) →
  keys assignment ⊆ variables crossword →
  covers crossword domains →
  (∃ u, u ∈ variables crossword ∧ u ∉ keys assignment) →
  ∃ v, select_unassigned_variable crossword assignment domains = Ret v ∧
       v ∈ variables crossword ∧ (v ∉ keys assignment) ∧
       ∀ u, u ∈ variables crossword → u ∉ keys assignment →
            (length (neighbors crossword u) ≤ length (neighbors crossword v))%nat.
Proof.
  intros Hnd Hkeys Hcov (u0 & Hu0 & Hu0').
  unfold select_unassigned_variable. rewrite unusedVar_spec by done.
  set (U := list_difference (variables crossword) (set_of_list (keys assignment))).
  assert (HU : ∀ u, u ∈ U ↔ u ∈ variables crossword ∧ u ∉ keys assignment)
    by apply elem_of_unused.
  assert (HndU : NoDup U) by by apply NoDup_list_difference.
  assert (HneU : U ≠ []) by (apply (elem_of_not_nil u0); by apply HU).
  rewrite (for_each_dict_set_fresh domains U []);
    [|done|by intros x _ ?%elem_of_nil|intros x Hx; apply Hcov; by apply HU].
  rewrite (fold_dict_set_fresh (λ x, length (neighbors crossword x)) U []);
    [|done|by intros x _ ?%elem_of_nil].
  simpl.
  set (maxdatos := map (λ x, (x, length (default [] (dict_get domains x)))) U).
  set (degrees := map (λ x, (x, length (neighbors crossword x))) U).
  destruct (keep_max_spec maxdatos) as (m1 & maxDict & -> & Hne1 & _ & Hmax).
  { unfold maxdatos. by destruct U. }
  destruct (keep_max_spec degrees) as (m2 & degreeDict & -> & Hne2 & Hle & Hdeg).
  { unfold degrees. by destruct U. }
  simpl.
  assert (Hdegree : ∃ v, list_pop (keys degreeDict) = Ret v ∧ v ∈ U ∧
            ∀ u, u ∈ U → (length (neighbors crossword u)
                          ≤ length (neighbors crossword v))%nat).
  { destruct (list_pop_nonempty (keys degreeDict)) as (v & Hpop & Hv).
    { unfold keys. by destruct degreeDict. }
    exists v. split; [done|].
    apply list_elem_of_fmap in Hv as ([v' n] & -> & Hvn). simpl.
    apply Hdeg in Hvn as [Hvn ->].
    apply list_elem_of_fmap in Hvn as (v0 & [= -> ->] & Hv0).
    split; [done|]. intros u Hu. apply (Hle u).
    apply list_elem_of_fmap. by exists u. }
  assert (Hgoal : ∃ v, (if decide (1 < length maxdatos)
                        then if decide (1 < length degreeDict)
                             then list_pop (keys degreeDict)
                             else list_pop (keys degreeDict)
                        else list_pop (keys maxDict)) = Ret v ∧ v ∈ U ∧
            ∀ u, u ∈ U → (length (neighbors crossword u)
                          ≤ length (neighbors crossword v))%nat).
  { case_decide as Hlen; [by case_decide|].
    destruct (list_pop_nonempty (keys maxDict)) as (v & Hpop & Hv).
    { unfold keys. by destruct maxDict. }
    exists v. split; [done|].
    apply list_elem_of_fmap in Hv as ([v' n] & -> & Hvn). simpl.
    apply Hmax in Hvn as [Hvn _].
    apply list_elem_of_fmap in Hvn as (v0 & [= -> _] & Hv0).
    split; [done|]. intros u Hu.
    unfold maxdatos in Hlen. rewrite length_map in Hlen.
    destruct U as [|u1 [|u2 U']]; [done| |simpl in Hlen; lia].
    apply list_elem_of_singleton in Hu, Hv0. by subst. }
  destruct Hgoal as (v & Hv & HvU & Hvmax). exists v.
  apply HU in HvU as [? ?]. split_and!; [done..|].
  intros u Hu Hu'. apply Hvmax. by apply HU.
Qed.

Lemma select_returns_unassigned_of_highest_degree_witness :
  let domains := enforce_node_consistency (init fork) in
  ∃ v, select_unassigned_variable fork [(fork_y, "star")] domains = Ret v ∧
       v ∈ variables fork ∧ (v ∉ keys [(fork_y, "star")]) ∧
       ∀ u, u ∈ variables fork → u ∉ keys [(fork_y, "star")] →
            (length (neighbors fork u) ≤ length (neighbors fork v))%nat.
Proof.
  apply (select_returns_unassigned_of_highest_degree fork [(fork_y, "star")]
           (enforce_node_consistency (init fork))).
  - compute_done.
  - compute_done.
  - apply covers_init_enforced.
  - exists fork_x. split; compute_done.
Defined.

(** X9: when every slot of the puzzle has a word, there is nothing to
    select: [select_unassigned_variable] raises [IndexError], from popping
    an empty list. *)
Theorem select_on_full_assignment_raises
    (crossword : Crossword) (assignment : Assignment) (domains : Domains) :
  keys assignment ⊆ variables crossword →
  variables crossword ⊆ keys assignment →
  select_unassigned_variable crossword assignment domains = Raise IndexError_pop.
Proof.
  intros Hkeys Hvars. unfold select_unassigned_variable.
  rewrite unusedVar_spec by done.
  assert (Hnil : list_difference (variables crossword)
                   (set_of_list (keys assignment)) = []).
  { apply elem_of_nil_inv. intros x [Hx Hnx]%elem_of_unused. by apply Hnx, Hvars. }
  by rewrite Hnil.
Qed.

Lemma select_on_full_assignment_raises_witness :
  select_unassigned_variable two_slots [(slot_B, "ART"); (slot_A, "CAT")]
    (enforce_node_consistency (init two_slots)) = Raise IndexError_pop.
Proof.
  apply (select_on_full_assignment_raises two_slots
           [(slot_B, "ART"); (slot_A, "CAT")]); compute_done.
Defined.

(** ** More on [order_domain_values] and [backtrack] *)

(** X10: [order_domain_values] hands back the current domain of the slot,
    as it is stored and whatever the assignment, and leaves the domain map
    as it was: the branch that would score and sort the words is never
    entered.  For a slot without a domain it raises [KeyError]. *)
Theorem order_domain_values_is_the_domain
    (crossword : Crossword) (var : Var) (assignment : Assignment) (domains : Domains) :
  (∀ D, dict_get domains var = Some D →
     order_domain_values crossword var assignment domains = Ret (Some D, domains)) ∧
  (dict_get domains var = None →
     order_domain_values crossword var assignment domains
     = Raise (KeyError_domains var)).
Proof.
  rewrite order_domain_values_eq. unfold domains_get.
  split; [by intros D ->|by intros ->].
Qed.

Lemma order_domain_values_is_the_domain_witness :
  order_domain_values bridge bridge_x [(bridge_y, "cx")]
    (enforce_node_consistency (init bridge))
  = Ret (Some ["aba"; "cbc"], enforce_node_consistency (init bridge)) ∧
  order_domain_values bridge bridge_x [] [] = Raise (KeyError_domains bridge_x).
Proof.
  split.
  - apply (order_domain_values_is_the_domain bridge bridge_x [(bridge_y, "cx")]
             (enforce_node_consistency (init bridge))). reflexivity.
  - apply (order_domain_values_is_the_domain bridge bridge_x [] []). reflexivity.
Defined.

Section backtrack_more.
Context (crossword : Crossword).
Implicit Types (assignment : Assignment) (domains : Domains).

Lemma consistent_not_OutOfFuel assignment :
  consistent crossword assignment ≠ OutOfFuel.
Proof.
  unfold consistent.
  intros ([var wd] & t & _ & Hbody)%for_each_OutOfFuel_inv.
  case_decide; [|done].
  apply for_each_OutOfFuel_inv in Hbody as (vecino & s & _ & Hb). revert Hb.
  unfold overlaps_get, item0, item1, assignment_get, str_index.
  destruct (overlaps crossword (var, vecino)) as [[[k0 k1]|]|]; [simpl|done..].
  destruct (String.get k0 wd); [simpl|done].
  destruct (dict_get assignment vecino) as [other|]; [simpl|done].
  by destruct (String.get k1 other).
Qed.

Lemma keep_max_not_OutOfFuel (d : dict Var nat) : keep_max d ≠ OutOfFuel.
Proof.
  unfold keep_max. intros ([k n] & _ & Hc)%comprehension_if_OutOfFuel_inv.
  by destruct (values d).
Qed.

Lemma select_not_OutOfFuel assignment domains :
  select_unassigned_variable crossword assignment domains ≠ OutOfFuel.
Proof.
  unfold select_unassigned_variable.
  intros [(x & d & _ & Hb)%for_each_OutOfFuel_inv|(maxdatos & _ & Hrest)]%bind_OutOfFuel_inv.
  { unfold domains_get in Hb. by destruct (dict_get domains x). }
  apply bind_OutOfFuel_inv in Hrest as [?%keep_max_not_OutOfFuel|(maxDict & _ & Hrest)]; [done|].
  apply bind_OutOfFuel_inv in Hrest as [?%keep_max_not_OutOfFuel|(degreeDict & _ & Hrest)]; [done|].
  revert Hrest. unfold list_pop.
  repeat case_decide; by destruct (last _).
Qed.

Lemma select_fresh assignment domains v :
  keys assignment ⊆ variables crossword →
  select_unassigned_variable crossword assignment domains = Ret v →
  v ∈ variables crossword ∧ v ∉ keys assignment.
Proof.
  intros Hkeys [Hv _]%select_unassigned_variable_elem.
  rewrite unusedVar_spec in Hv by done. by apply elem_of_unused in Hv.
Qed.

Lemma keys_set_fresh_subseteq assignment v w :
  keys assignment ⊆ variables crossword → v ∈ variables crossword →
  keys (dict_set assignment v w) ⊆ variables crossword.
Proof. intros Hkeys Hv u [->|?]%elem_of_keys_dict_set; auto. Qed.

Lemma backtrack_for_not_OutOfFuel rec variable vals assignment domains :
  variable ∉ keys assignment →
  (∀ value, rec (dict_set assignment variable value) domains ≠ OutOfFuel) →
  backtrack_for crossword rec variable vals assignment domains ≠ OutOfFuel.
Proof.
  intros Hfresh Hrec. induction vals as [|value vals IH]; simpl; [done|].
  intros [?%consistent_not_OutOfFuel|(ok & _ & Hrest)]%bind_OutOfFuel_inv; [done|].
  destruct ok.
  - apply bind_OutOfFuel_inv in Hrest as [?%Hrec|([[r a1] d1] & _ & Hret)]; [done|].
    by destruct r.
  - unfold assignment_pop in Hrest. rewrite dict_pop_fresh in Hrest by done.
    simpl in Hrest. by apply IH.
Qed.

Lemma backtrack_not_OutOfFuel fuel assignment domains :
  NoDup (variables crossword) →
  NoDup (keys assignment) → keys assignment ⊆ variables crossword →
  length (variables crossword) - length (keys assignment) < fuel →
  backtrack crossword fuel assignment domains ≠ OutOfFuel.
Proof.
  intros Hvars. revert assignment.
  induction fuel as [|fuel IH]; intros assignment Hnd Hkeys Hfuel; [lia|]. simpl.
  intros [Hc|(complete & _ & Hrest)]%bind_OutOfFuel_inv.
  { unfold assignment_complete in Hc. case_decide; [|done].
    by apply consistent_not_OutOfFuel in Hc. }
  destruct complete; [done|].
  apply bind_OutOfFuel_inv in Hrest as [?%select_not_OutOfFuel|(variable & Hsel & Hrest)];
    [done|].
  rewrite order_domain_values_eq in Hrest. unfold domains_get in Hrest.
  destruct (dict_get domains variable) as [D|]; [simpl in Hrest|done].
  destruct (select_fresh _ _ _ Hkeys Hsel) as [Hvar Hfresh].
  revert Hrest. apply backtrack_for_not_OutOfFuel; [done|].
  intros value. apply IH.
  - by apply NoDup_keys_dict_set.
  - by apply keys_set_fresh_subseteq.
  - assert (Hle : (length (keys (dict_set assignment variable value))
                   ≤ length (variables crossword))%nat).
    { apply submseteq_length, NoDup_submseteq.
      - by apply NoDup_keys_dict_set.
      - by apply keys_set_fresh_subseteq. }
    assert (Hlen : length (keys (dict_set assignment variable value))
                   = S (length (keys assignment))).
    { rewrite dict_set_fresh by done. unfold keys.
      rewrite fmap_app, length_app. simpl. lia. }
    lia.
Qed.

Lemma backtrack_for_appends rec variable vals assignment domains r a' d' :
  variable ∉ keys assignment →
  (∀ value r a' d',
     rec (dict_set assignment variable value) domains = Ret (r, a', d') →
     ∃ rest, a' = dict_set assignment variable value ++ rest) →
  backtrack_for crossword rec variable vals assignment domains = Ret (r, a', d') →
  ∃ rest, a' = assignment ++ rest.
Proof.
  intros Hfresh Hrec. induction vals as [|value vals IH]; simpl.
  - intros [= _ <- _]. exists []. by rewrite app_nil_r.
  - intros (ok & _ & Hrest)%bind_Ret_inv. destruct ok.
    + apply bind_Ret_inv in Hrest as ([[r1 a1] d1] & Hr & Hret).
      apply Hrec in Hr as [rest ->].
      rewrite dict_set_fresh, <- app_assoc in Hret by done.
      exists ((variable, value) :: rest). by destruct r1; injection Hret as _ <- _.
    + unfold assignment_pop in Hrest. rewrite dict_pop_fresh in Hrest by done.
      simpl in Hrest. by apply IH.
Qed.

Lemma backtrack_appends fuel assignment domains r a' d' :
  keys assignment ⊆ variables crossword →
  backtrack crossword fuel assignment domains = Ret (r, a', d') →
  ∃ rest, a' = assignment ++ rest.
Proof.
  revert assignment r a' d'.
  induction fuel as [|fuel IH]; simpl; intros assignment r a' d' Hkeys; [done|].
  intros (complete & _ & Hrest)%bind_Ret_inv. destruct complete.
  - injection Hrest as _ <- _. exists []. by rewrite app_nil_r.
  - apply bind_Ret_inv in Hrest as (variable & Hsel & Hrest).
    rewrite order_domain_values_eq in Hrest.
    apply bind_Ret_inv in Hrest as ([vals d1] & (D & _ & [= <- <-])%bind_Ret_inv & Hrest).
    destruct (select_fresh _ _ _ Hkeys Hsel) as [Hvar Hfresh].
    eapply backtrack_for_appends; [done| |done].
    intros value r0 a0 d0. apply IH. by apply keys_set_fresh_subseteq.
Qed.
End backtrack_more.

(** X11: the search is finite.  On a puzzle with distinct slots and an
    assignment to distinct slots of it, [backtrack] comes to an end (it
    returns or raises) within a recursion depth of one more than the number
    of slots that have no word yet. *)
Theorem backtrack_depth_bounded
    (crossword : Crossword) (fuel : nat) (assignment : Assignment) (domains : Domains) :
  NoDup (variables crossword) →
  NoDup (keys assignment) →
  keys assignment ⊆ variables crossword →
  length (variables crossword) - length (keys assignment) < fuel →
  backtrack crossword fuel assignment domains ≠ OutOfFuel.
Proof. apply backtrack_not_OutOfFuel. Qed.

Lemma backtrack_depth_bounded_witness :
  backtrack square 5 [] (enforce_node_consistency (init square)) ≠ OutOfFuel.
Proof.
  apply (backtrack_depth_bounded square 5 [] (enforce_node_consistency (init square))).
  - compute_done.
  - compute_done.
  - compute_done.
  - vm_compute. lia.
Defined.

(** X12: the words of a solution come from the domains.  When [solve]
    returns an assignment, the word of each slot was in the domain that slot
    had when [solve] was called; for a freshly created solver that is a word
    of the pool. *)
Theorem solve_uses_domain_words
    (crossword : Crossword) (fuel : nat) (domains : Domains)
    (r a' : Assignment) (domains' : Domains) :
  NoDup (keys domains) →
  solve crossword fuel domains = Ret (Some r, a', domains') →
  ∀ v w, dict_get r v = Some w →
    ∃ D, dict_get domains v = Some D ∧ w ∈ D.
Proof.
  intros Hnd. unfold solve.
  intros ([b d2] & Hac3%ac3_loop_shrink & Hbt)%bind_Ret_inv v w Hw.
  apply backtrack_sound in Hbt as (_ & _ & _ & _ & Hdom); [|apply drawn_from_nil].
  destruct (Hdom v w Hw) as (D2 & HD2 & Hw2).
  destruct (Hac3 v D2 HD2) as (D1 & HD1 & Hsub1).
  destruct (enforce_node_consistency_shrink domains Hnd v D1 HD1) as (D & HD & Hsub).
  exists D. split; [done|]. by apply Hsub, Hsub1.
Qed.

Lemma solve_uses_domain_words_witness :
  ∃ D, dict_get (init two_slots) slot_A = Some D ∧ "CAT" ∈ D.
Proof.
  apply (solve_uses_domain_words two_slots 10 (init two_slots)
           [(slot_B, "ART"); (slot_A, "CAT")] [(slot_B, "ART"); (slot_A, "CAT")]
           [(slot_A, ["CAT"; "CAR"]); (slot_B, ["ART"])]).
  - compute_done.
  - vm_compute. reflexivity.
  - reflexivity.
Defined.

(** X13: [backtrack] only adds to the dictionary it is given.  Called on
    an assignment to slots of the puzzle, whether it returns that dictionary
    or [None], the entries that were there at the call are still there, in
    their places and with their words, and what is new comes after them. *)
Theorem backtrack_only_appends
    (crossword : Crossword) (fuel : nat) (assignment : Assignment) (domains : Domains)
    (r : option Assignment) (a' : Assignment) (domains' : Domains) :
  keys assignment ⊆ variables crossword →
  backtrack crossword fuel assignment domains = Ret (r, a', domains') →
  ∃ rest, a' = assignment ++ rest.
Proof. apply backtrack_appends. Qed.

Lemma backtrack_only_appends_witness :
  ∃ rest, [(bridge_x, "cbc"); (bridge_z, "cx"); (bridge_y, "cx")]
          = [(bridge_x, "cbc")] ++ rest.
Proof.
  apply (backtrack_only_appends bridge 5 [(bridge_x, "cbc")]
           (enforce_node_consistency (init bridge))
           (Some [(bridge_x, "cbc"); (bridge_z, "cx"); (bridge_y, "cx")])
           [(bridge_x, "cbc"); (bridge_z, "cx"); (bridge_y, "cx")]
           (enforce_node_consistency (init bridge))).
  - compute_done.
  - vm_compute. reflexivity.
Defined.

(** ** Arc consistency at the end of [ac3] *)

Lemma agree_sym (w : word) (kw : nat) (v : word) (kv : nat) :
  agree w kw v kv → agree v kv w kw.
Proof. intros (c & ? & ?). by exists c. Qed.

Lemma well_formed_neighbors_overlap (crossword : Crossword) :
  well_formed crossword → neighbors_overlap crossword.
Proof.
  intros [_ Hwf] a b Ha Hb.
  destruct (Hwf a b Ha Hb) as (? & _ & _ & ka & kb & ? & _). by eauto.
Qed.

Lemma domains_are_sets_set (domains : Domains) (x : Var) (D : list word) :
  domains_are_sets domains → NoDup D → domains_are_sets (dict_set domains x D).
Proof.
  intros Hsets HD s D'. rewrite dict_get_set. case_decide; [by intros [= <-]|].
  apply Hsets.
Qed.

Section ac3_sound.
Context (crossword : Crossword).
Implicit Types (x y : Var) (domains : Domains) (quee : list (Var * Var)).

(** One turn of the loop, on an arc between neighbours: what [revise]
    leaves in [domains[x]], and the worklist that results. *)
Lemma ac3_body_spec x y quee domains quee' domains' :
  well_formed crossword → covers crossword domains →
  node_consistent domains → domains_are_sets domains →
  y ∈ variables crossword → x ∈ neighbors crossword y →
  ac3_body crossword (x, y) quee domains = Ret (inr (quee', domains')) →
  ∃ Dx Dy Dx' ky kx,
    x ≠ y ∧ x ∈ variables crossword ∧
    dict_get domains x = Some Dx ∧ dict_get domains y = Some Dy ∧
    overlaps crossword (y, x) = Some (Some (ky, kx)) ∧
    overlaps crossword (x, y) = Some (Some (kx, ky)) ∧
    domains' = dict_set domains x Dx' ∧ NoDup Dx' ∧
    (∀ w, w ∈ Dx' ↔ w ∈ Dx ∧ ∃ v, v ∈ Dy ∧ v ≠ w ∧ agree w kx v ky) ∧
    quee' = quee ++ map (λ vecino, (vecino, x))
                        (filter (λ u, u ≠ y) (neighbors crossword x)).
Proof.
  intros [_ Hwf] Hcov Hnc Hsets Hy Hx Hbody.
  destruct (Hwf y x Hy Hx) as (Hxv & Hne & Hyx & ky & kx & Hov & Hov' & Hky & Hkx).
  destruct (Hcov x Hxv) as [Dx HDx]. destruct (Hcov y Hy) as [Dy HDy].
  destruct (revise_spec crossword x y domains Dx Dy ky kx)
    as (Dx' & Hrev & Hspec); [done..|by eapply Hsets| | |].
  { by eapply in_range_node_consistent. }
  { by eapply in_range_node_consistent. }
  apply ac3_body_inv in Hbody as (d1 & vecinos & Hrev' & Hrem & [= -> ->]).
  simpl in *. rewrite Hrev in Hrev'. injection Hrev' as <-.
  unfold set_remove in Hrem. rewrite decide_True in Hrem by done.
  injection Hrem as <-.
  exists Dx, Dy, Dx', ky, kx. split_and!; try done.
  apply revise_Ret_inv in Hrev as (?&?&?&?&Dx''&_&_&_&_&_&Heq&Hnd&_).
  assert (Some Dx' = Some Dx'') as [= ->]; [|done].
  by rewrite <- (dict_get_set_eq domains x Dx'), Heq, dict_get_set_eq.
Qed.

Lemma ac3_body_keeps_invariant x y quee domains quee' domains' :
  well_formed crossword → covers crossword domains →
  node_consistent domains → domains_are_sets domains →
  y ∈ variables crossword → x ∈ neighbors crossword y →
  pending_or_consistent crossword ((x, y) :: quee) domains →
  ac3_body crossword (x, y) quee domains = Ret (inr (quee', domains')) →
  covers crossword domains' ∧ node_consistent domains' ∧
  domains_are_sets domains' ∧
  pending_or_consistent crossword quee' domains'.
Proof.
  intros Hwf Hcov Hnc Hsets Hy Hx Hinv Hbody.
  destruct (ac3_body_spec _ _ _ _ _ _ Hwf Hcov Hnc Hsets Hy Hx Hbody)
    as (Dx & Dy & Dx' & ky & kx & Hxy & Hxv & HDx & HDy & Hov & Hov' & -> & Hnd & Hspec & ->).
  assert (Hsub : Dx' ⊆ Dx) by (intros w Hw; by apply Hspec in Hw as [? _]).
  split_and!.
  - by apply covers_set.
  - eapply node_consistent_shrink; [|done]. by eapply domains_shrink_set.
  - by apply domains_are_sets_set.
  - intros a b Hb Ha.
    destruct Hwf as [_ Hwf]. destruct (Hwf b a Hb Ha) as (Hav & Hab & _).
    destruct (decide (b = x)) as [->|Hbx].
    + (* arcs into [x] *)
      destruct (decide (a = y)) as [->|Hay].
      * destruct (Hinv y x Hb Ha) as [Hin|Hac].
        -- left. apply elem_of_app; left.
           apply elem_of_cons in Hin as [[= ? ?]|?]; [congruence|done].
        -- right. intros Da Db kb ka w.
           rewrite dict_get_set_eq, dict_get_set_ne by done.
           intros HDa [= <-] Hov2 Hw. rewrite Hov' in Hov2. injection Hov2 as <- <-.
           destruct (Hac Da Dx kx ky w HDa HDx Hov' Hw) as (v & Hv & Hvw & Hag).
           exists v. split_and!; [|done..].
           apply Hspec. split; [done|]. rewrite HDy in HDa. injection HDa as <-.
           exists w. split_and!; [done|congruence|by apply agree_sym].
      * left. apply elem_of_app; right. apply list_elem_of_fmap.
        exists a. split; [done|]. by apply list_elem_of_filter.
    + destruct (decide (a = x)) as [->|Hax].
      * (* arcs out of [x] *)
        destruct (decide (b = y)) as [->|Hby].
        -- right. intros Da Db kb ka w.
           rewrite dict_get_set_eq, dict_get_set_ne by done.
           intros [= <-] HDb Hov2 Hw. rewrite HDy in HDb. injection HDb as <-.
           rewrite Hov in Hov2. injection Hov2 as <- <-.
           by apply Hspec in Hw as [_ ?].
        -- destruct (Hinv x b Hb Ha) as [Hin|Hac].
           ++ left. apply elem_of_app; left.
              apply elem_of_cons in Hin as [[= ?]|?]; [congruence|done].
           ++ right. intros Da Db kb ka w.
              rewrite dict_get_set_eq, dict_get_set_ne by done.
              intros [= <-] HDb Hov2 Hw.
              apply (Hac Dx Db kb ka w); [done..|by apply Hsub].
      * destruct (Hinv a b Hb Ha) as [Hin|Hac].
        -- left. apply elem_of_app; left.
           apply elem_of_cons in Hin as [[= ? ?]|?]; [congruence|done].
        -- right. intros Da Db kb ka w.
           rewrite !dict_get_set_ne by done. apply Hac.
Qed.

Lemma ac3_loop_arc_consistent fuel quee domains b domains' :
  well_formed crossword → covers crossword domains →
  node_consistent domains → domains_are_sets domains →
  (∀ x y, (x, y) ∈ quee → y ∈ variables crossword ∧ x ∈ neighbors crossword y) →
  pending_or_consistent crossword quee domains →
  ac3_loop crossword fuel quee domains = Ret (b, domains') →
  pending_or_consistent crossword [] domains'.
Proof.
  intros Hwf. revert quee domains.
  induction fuel as [|fuel IH]; intros [|[x y] quee] domains Hcov Hnc Hsets Harcs Hinv;
    simpl; [by intros [= _ <-]|done|by intros [= _ <-]|].
  intros (r & Hbody & Hloop)%bind_Ret_inv.
  pose proof Hbody as (d1 & vecinos & _ & _ & ->)%ac3_body_inv.
  destruct (Harcs x y) as [Hy Hx]; [by left|].
  destruct (ac3_body_keeps_invariant _ _ _ _ _ _ Hwf Hcov Hnc Hsets Hy Hx Hinv Hbody)
    as (Hcov' & Hnc' & Hsets' & Hinv').
  eapply IH; [done..| |done|done].
  eapply ac3_body_arcs; [by apply well_formed_neighbors_overlap|done|done].
Qed.
End ac3_sound.

(** X14: arc consistency at the end of propagation.  On a well-formed
    puzzle, from a node-consistent domain map that gives every slot a set
    of words, [ac3], when it returns, answers [True] and leaves every slot
    arc consistent with each of its neighbours: each word still in the
    domain of the slot agrees, at the overlap, with another word still in
    the domain of the neighbour. *)
Theorem ac3_leaves_arcs_consistent
    (crossword : Crossword) (fuel : nat) (domains : Domains)
    (b : bool) (domains' : Domains) :
  well_formed crossword → covers crossword domains →
  node_consistent domains → domains_are_sets domains →
  ac3 crossword fuel None domains = Ret (b, domains') →
  b = true ∧
  ∀ x y, y ∈ variables crossword → x ∈ neighbors crossword y →
    arc_consistent crossword domains' x y.
Proof.
  intros Hwf Hcov Hnc Hsets Hac3. split; [by eapply ac3_never_answers_False|].
  intros x y Hy Hx.
  destruct (ac3_loop_arc_consistent crossword fuel (initial_arcs crossword)
              domains b domains') with (x := x) (y := y) as [[]%elem_of_nil|?];
    try done.
  - by intros a c ?%elem_of_initial_arcs.
  - intros a c Hc Ha. left. by apply elem_of_initial_arcs.
Qed.

Lemma enforce_node_consistency_sets (domains : Domains) :
  NoDup (keys domains) → domains_are_sets (enforce_node_consistency domains).
Proof.
  intros Hnd s D. rewrite enforce_node_consistency_get by done.
  destruct (dict_get domains s); [|done]. intros [= <-]. apply NoDup_fitting.
Qed.

Lemma ac3_leaves_arcs_consistent_witness :
  true = true ∧
  ∀ x y, y ∈ variables two_slots → x ∈ neighbors two_slots y →
    arc_consistent two_slots [(slot_A, ["CAT"; "CAR"]); (slot_B, ["ART"])] x y.
Proof.
  apply (ac3_leaves_arcs_consistent two_slots 10
           (enforce_node_consistency (init two_slots))).
  - apply well_formedb_true. vm_compute. reflexivity.
  - apply covers_init_enforced.
  - apply enforce_node_consistency_node_consistent. compute_done.
  - apply enforce_node_consistency_sets. compute_done.
  - vm_compute. reflexivity.
Defined.

(** ** Termination of [ac3] on ranked puzzles *)

Lemma rankedb_true (crossword : Crossword) (rank : Var → Var → nat) :
  rankedb crossword rank = true → ranked crossword rank.
Proof.
  unfold rankedb. rewrite forallb_forall. intros Hall x y z Hy Hx Hz Hzy.
  apply list_elem_of_In, Hall in Hy. rewrite forallb_forall in Hy.
  apply list_elem_of_In, Hy in Hx. rewrite forallb_forall in Hx.
  apply list_elem_of_In, Hx in Hz.
  apply orb_true_iff in Hz as [Hz|Hz]; by apply bool_decide_eq_true in Hz.
Qed.

Lemma max_degree_le (crossword : Crossword) (v : Var) :
  v ∈ variables crossword →
  (length (neighbors crossword v) ≤ max_degree crossword)%nat.
Proof.
  unfold max_degree. induction (variables crossword) as [|u l IH]; simpl.
  - by intros ?%elem_of_nil.
  - intros [->|Hv%IH]%elem_of_cons; lia.
Qed.

Section ac3_terminates.
Context (crossword : Crossword) (rank : Var → Var → nat).
Implicit Types (x y : Var) (domains : Domains) (quee : list (Var * Var)).

Lemma worklist_cost_cons x y quee :
  worklist_cost crossword rank ((x, y) :: quee)
  = S (max_degree crossword) ^ rank x y + worklist_cost crossword rank quee.
Proof. done. Qed.

Lemma worklist_cost_app quee quee' :
  worklist_cost crossword rank (quee ++ quee')
  = worklist_cost crossword rank quee + worklist_cost crossword rank quee'.
Proof. apply sum_list_with_app. Qed.

(** The arcs put back after revising an arc cost less than that arc. *)
Lemma new_arcs_cost x (r : nat) (l : list Var) :
  (length l ≤ max_degree crossword)%nat →
  (∀ z, z ∈ l → rank z x < r) →
  worklist_cost crossword rank (map (λ z, (z, x)) l) < S (max_degree crossword) ^ r.
Proof.
  intros Hlen Hrank. destruct r as [|r].
  { destruct l as [|z l]; [simpl; lia|].
    assert (rank z x < 0) by (apply Hrank; by left). lia. }
  assert (Hsum : (worklist_cost crossword rank (map (λ z, (z, x)) l)
                  ≤ length l * S (max_degree crossword) ^ r)%nat).
  { clear Hlen. induction l as [|z l IH]; [simpl; lia|].
    simpl map. rewrite worklist_cost_cons. simpl length.
    assert (rank z x < S r) by (apply Hrank; by left).
    assert (S (max_degree crossword) ^ rank z x ≤ S (max_degree crossword) ^ r)%nat
      by (apply Nat.pow_le_mono_r; lia).
    assert (IH' : (worklist_cost crossword rank (map (λ z, (z, x)) l)
                   ≤ length l * S (max_degree crossword) ^ r)%nat)
      by (apply IH; intros u Hu; apply Hrank; by right).
    lia. }
  rewrite Nat.pow_succ_r'.
  assert (0 < S (max_degree crossword) ^ r) by (apply Nat.neq_0_lt_0, Nat.pow_nonzero; lia).
  nia.
Qed.

Lemma ac3_loop_fuel_mono fuel fuel' quee domains r :
  ac3_loop crossword fuel quee domains = Ret r → (fuel ≤ fuel')%nat →
  ac3_loop crossword fuel' quee domains = Ret r.
Proof.
  revert fuel' quee domains.
  induction fuel as [|fuel IH]; intros fuel' [|q quee] domains; simpl.
  - intros [= <-] _. by destruct fuel'.
  - done.
  - intros [= <-] _. by destruct fuel'.
  - intros (r0 & Hbody & Hloop)%bind_Ret_inv Hle.
    destruct fuel' as [|fuel']; [lia|]. simpl. rewrite Hbody. simpl.
    destruct r0 as [ret|[quee' d']]; [done|]. apply IH; [done|lia].
Qed.

(** A turn of the loop on an arc between neighbours returns. *)
Lemma ac3_body_returns x y quee domains :
  well_formed crossword → covers crossword domains → node_consistent domains →
  y ∈ variables crossword → x ∈ neighbors crossword y →
  ∃ domains',
    ac3_body crossword (x, y) quee domains
    = Ret (inr (quee ++ map (λ vecino, (vecino, x))
                            (filter (λ u, u ≠ y) (neighbors crossword x)),
                domains')) ∧
    covers crossword domains' ∧ node_consistent domains'.
Proof.
  intros [_ Hwf] Hcov Hnc Hy Hx.
  destruct (Hwf y x Hy Hx) as (Hxv & Hne & Hyx & ky & kx & Hov & _ & Hky & Hkx).
  destruct (Hcov x Hxv) as [Dx HDx]. destruct (Hcov y Hy) as [Dy HDy].
  destruct (revise_returns crossword x y domains Dx Dy ky kx) as (Dx' & Hrev & Hsub);
    [done..|by eapply in_range_node_consistent|by eapply in_range_node_consistent|].
  exists (dict_set domains x Dx'). split_and!.
  - unfold ac3_body. simpl. rewrite Hrev. simpl.
    unfold domains_get. rewrite dict_get_set_eq. simpl.
    unfold set_remove. by rewrite decide_True.
  - by apply covers_set.
  - eapply node_consistent_shrink; [|done]. by eapply domains_shrink_set.
Qed.

Lemma ac3_loop_terminates fuel quee domains :
  well_formed crossword → ranked crossword rank →
  covers crossword domains → node_consistent domains →
  (∀ x y, (x, y) ∈ quee → y ∈ variables crossword ∧ x ∈ neighbors crossword y) →
  (worklist_cost crossword rank quee ≤ fuel)%nat →
  ∃ domains', ac3_loop crossword fuel quee domains = Ret (true, domains').
Proof.
  intros Hwf Hrank. revert quee domains.
  induction fuel as [|fuel IH]; intros [|[x y] quee] domains Hcov Hnc Harcs Hcost;
    simpl; [by eauto| |by eauto|].
  { rewrite worklist_cost_cons in Hcost.
    assert (0 < S (max_degree crossword) ^ rank x y)
      by (apply Nat.neq_0_lt_0, Nat.pow_nonzero; lia). lia. }
  destruct (Harcs x y) as [Hy Hx]; [by left|].
  destruct (ac3_body_returns x y quee domains) as (d' & -> & Hcov' & Hnc'); [done..|].
  simpl. apply IH; [done..| |].
  - intros a c [Hin|(z & [= -> ->] & [Hzy Hz]%list_elem_of_filter)%list_elem_of_fmap]%elem_of_app.
    + apply Harcs. by right.
    + destruct Hwf as [_ Hwf]. destruct (Hwf y x Hy Hx) as (Hxv & _). done.
  - rewrite worklist_cost_cons in Hcost. rewrite worklist_cost_app.
    assert (worklist_cost crossword rank
              (map (λ z, (z, x)) (filter (λ u, u ≠ y) (neighbors crossword x)))
            < S (max_degree crossword) ^ rank x y); [|lia].
    apply new_arcs_cost.
    + etrans; [apply length_filter|]. apply max_degree_le.
      destruct Hwf as [_ Hwf]. by destruct (Hwf y x Hy Hx) as (? & _).
    + intros z [Hzy Hz]%list_elem_of_filter. by apply Hrank.
Qed.
End ac3_terminates.

(** X15: [ac3] terminates on a ranked puzzle.  On a well-formed puzzle
    whose arcs can be ranked so that the arcs put on the worklist after a
    revision rank below the revised arc, from a node-consistent
    domain map that gives every slot a domain, the worklist loop comes to
    an end: there is a number of turns within which [ac3] returns, with the
    answer [True] and the same domains however many more turns it is
    allowed. *)
Theorem ac3_terminates_when_ranked
    (crossword : Crossword) (rank : Var → Var → nat) (domains : Domains) :
  well_formed crossword → ranked crossword rank →
  covers crossword domains → node_consistent domains →
  ∃ turns domains', ∀ fuel, (turns ≤ fuel)%nat →
    ac3 crossword fuel None domains = Ret (true, domains').
Proof.
  intros Hwf Hrank Hcov Hnc.
  set (turns := worklist_cost crossword rank (initial_arcs crossword)).
  destruct (ac3_loop_terminates crossword rank turns (initial_arcs crossword) domains)
    as [domains' Hloop]; [done..| |done|].
  { by intros x y ?%elem_of_initial_arcs. }
  exists turns, domains'. intros fuel Hfuel.
  by eapply ac3_loop_fuel_mono.
Qed.

Lemma ac3_terminates_when_ranked_witness :
  ∃ turns domains', ∀ fuel, (turns ≤ fuel)%nat →
    ac3 bridge fuel None (enforce_node_consistency (init bridge))
    = Ret (true, domains').
Proof.
  apply (ac3_terminates_when_ranked bridge
           (λ x y, if decide (x = bridge_x) then 1 else 0)
           (enforce_node_consistency (init bridge))).
  - apply well_formedb_true. vm_compute. reflexivity.
  - apply rankedb_true. vm_compute. reflexivity.
  - apply covers_init_enforced.
  - apply enforce_node_consistency_node_consistent. compute_done.
Defined.

(** ** [letter_grid] *)

Lemma for_each_opt_app {A S : Type} (l1 l2 : list A) (body : A → S → option S) (s : S) :
  for_each_opt (l1 ++ l2) body s
  = s' ← for_each_opt l1 body s; for_each_opt l2 body s'.
Proof.
  revert s. induction l1 as [|x l1 IH]; simpl; intros s; [done|].
  destruct (body x s) as [s1|]; simpl; [apply IH|done].
Qed.

Lemma for_each_opt_cons {A S : Type} (x : A) (l : list A)
    (body : A → S → option S) (s : S) :
  for_each_opt (x :: l) body s = s' ← body x s; for_each_opt l body s'.
Proof. done. Qed.

Lemma write_word_flat (variable : Var) (wd : word) (letters : Letters) :
  write_word variable wd letters
  = for_each_opt (map (λ k, (variable, wd, k)) (seq 0 (len_str wd)))
                 write_letter letters.
Proof.
  unfold write_word. generalize (seq 0 (len_str wd)) as ks. intros ks.
  revert letters. induction ks as [|k ks IH]; intros letters; [done|].
  simpl map. rewrite !for_each_opt_cons.
  destruct (write_letter (variable, wd, k) letters); simpl; [apply IH|done].
Qed.

(** [letter_grid] makes the writes of [letter_writes], one after the other,
    on a blank grid. *)
Lemma letter_grid_flat (height width : nat) (assignment : Assignment) :
  letter_grid height width assignment
  = for_each_opt (letter_writes assignment) write_letter
                 (blank_letters height width).
Proof.
  unfold letter_grid, letter_writes. generalize (blank_letters height width).
  induction assignment as [|[variable wd] assignment IH]; simpl; intros letters; [done|].
  rewrite for_each_opt_app, write_word_flat.
  destruct (for_each_opt _ write_letter letters); simpl; [apply IH|done].
Qed.

Lemma elem_of_letter_writes (assignment : Assignment) v wd k :
  (v, wd, k) ∈ letter_writes assignment ↔ (v, wd) ∈ assignment ∧ k < len_str wd.
Proof.
  unfold letter_writes. rewrite list_elem_of_In, in_flat_map.
  setoid_rewrite <- list_elem_of_In. split.
  - intros ([v' wd'] & Hin & (k' & [= -> -> ->] & Hk)%list_elem_of_fmap).
    split; [done|]. apply elem_of_seq in Hk. lia.
  - intros [Hin Hk]. exists (v, wd). split; [done|].
    apply list_elem_of_fmap. exists k. split; [done|]. apply elem_of_seq. lia.
Qed.

Lemma blank_letters_shape (height width : nat) :
  has_shape height width (blank_letters height width).
Proof.
  split; [apply length_replicate|].
  apply Forall_replicate, length_replicate.
Qed.

Lemma letters_get_blank (height width i j : nat) :
  i < height → j < width →
  letters_get (blank_letters height width) i j = Some None.
Proof.
  intros Hi Hj. unfold letters_get, blank_letters.
  rewrite lookup_replicate_2 by done. simpl. by rewrite lookup_replicate_2.
Qed.

Section letters.
Context (height width : nat).
Implicit Types (letters : Letters) (i j : nat) (c : ascii).

(** A write succeeds exactly inside the grid. *)
Lemma letters_set_is_Some letters i j c :
  has_shape height width letters →
  is_Some (letters_set letters i j c) ↔ i < height ∧ j < width.
Proof.
  intros [Hlen Hrows]. unfold letters_set. split.
  - destruct (letters !! i) as [row|] eqn:Hrow; simpl; [|by intros [? [=]]].
    case_decide as Hj; [|by intros [? [=]]]. intros _.
    split; [rewrite <- Hlen; by eapply lookup_lt_Some|].
    rewrite Forall_forall in Hrows. rewrite <- (Hrows row); [done|].
    by eapply list_elem_of_lookup_2.
  - intros [Hi Hj]. rewrite <- Hlen in Hi.
    apply lookup_lt_is_Some in Hi as [row Hrow]. rewrite Hrow. simpl.
    rewrite Forall_forall in Hrows.
    rewrite decide_True; [by eauto|].
    rewrite (Hrows row); [done|]. by eapply list_elem_of_lookup_2.
Qed.

Lemma letters_set_shape letters letters' i j c :
  has_shape height width letters →
  letters_set letters i j c = Some letters' →
  has_shape height width letters'.
Proof.
  intros [Hlen Hrows]. unfold letters_set.
  destruct (letters !! i) as [row|] eqn:Hrow; simpl; [|done].
  case_decide; [|done]. intros [= <-]. split.
  - by rewrite length_insert.
  - apply Forall_insert; [done|]. rewrite length_insert.
    rewrite Forall_forall in Hrows. apply Hrows. by eapply list_elem_of_lookup_2.
Qed.

(** Reading a grid after a write. *)
Lemma letters_get_set letters letters' i j c i' j' :
  letters_set letters i j c = Some letters' →
  letters_get letters' i' j'
  = if decide ((i', j') = (i, j)) then Some (Some c) else letters_get letters i' j'.
Proof.
  unfold letters_set, letters_get.
  destruct (letters !! i) as [row|] eqn:Hrow; simpl; [|done].
  case_decide as Hj; [|done]. intros [= <-].
  destruct (decide (i' = i)) as [->|Hi].
  - rewrite list_lookup_insert_eq by by eapply lookup_lt_Some. simpl.
    destruct (decide (j' = j)) as [->|Hj'].
    + rewrite decide_True by done. by rewrite list_lookup_insert_eq.
    + rewrite decide_False by congruence.
      rewrite list_lookup_insert_ne by done. by rewrite Hrow.
  - rewrite decide_False by congruence. by rewrite list_lookup_insert_ne.
Qed.
End letters.

Section letter_writes.
Context (height width : nat).
Implicit Types (letters : Letters) (ws : list (Var * word * nat)).

Lemma write_letter_shape v wd k letters letters' :
  has_shape height width letters →
  write_letter (v, wd, k) letters = Some letters' →
  has_shape height width letters'.
Proof.
  intros Hshape. unfold write_letter. destruct (cell_of v k) as [i j].
  destruct (String.get k wd) as [c|]; simpl; [|done].
  by apply letters_set_shape.
Qed.

Lemma write_letter_is_Some v wd k letters :
  has_shape height width letters → k < len_str wd →
  is_Some (write_letter (v, wd, k) letters) ↔
  (cell_of v k).1 < height ∧ (cell_of v k).2 < width.
Proof.
  intros Hshape [c Hc]%str_index_lt. unfold write_letter.
  destruct (cell_of v k) as [i j]. rewrite Hc. simpl.
  by apply letters_set_is_Some.
Qed.

Lemma write_letter_get v wd k letters letters' :
  write_letter (v, wd, k) letters = Some letters' →
  ∃ c, String.get k wd = Some c ∧
    ∀ i j, letters_get letters' i j
           = if decide ((i, j) = cell_of v k) then Some (Some c)
             else letters_get letters i j.
Proof.
  unfold write_letter. destruct (cell_of v k) as [i0 j0].
  destruct (String.get k wd) as [c|]; simpl; [|done].
  intros Hset. exists c. split; [done|]. intros i j.
  by apply letters_get_set.
Qed.

Lemma writes_shape ws letters letters' :
  has_shape height width letters →
  for_each_opt ws write_letter letters = Some letters' →
  has_shape height width letters'.
Proof.
  revert letters. induction ws as [|[[v wd] k] ws IH]; intros letters Hshape.
  - by intros [= <-].
  - rewrite for_each_opt_cons.
    destruct (write_letter (v, wd, k) letters) as [l1|] eqn:Hw; simpl; [|done].
    apply IH. by eapply write_letter_shape.
Qed.

Lemma writes_is_Some ws letters :
  has_shape height width letters →
  (∀ v wd k, (v, wd, k) ∈ ws → k < len_str wd) →
  is_Some (for_each_opt ws write_letter letters) ↔
  ∀ v wd k, (v, wd, k) ∈ ws →
    (cell_of v k).1 < height ∧ (cell_of v k).2 < width.
Proof.
  revert letters. induction ws as [|[[v wd] k] ws IH]; intros letters Hshape Hlen.
  - simpl. split; [by intros _ ? ? ? ?%elem_of_nil|by eauto].
  - rewrite for_each_opt_cons.
    assert (Hk : k < len_str wd) by (apply (Hlen v); by left).
    pose proof (write_letter_is_Some v wd k letters Hshape Hk) as Hhead.
    destruct (write_letter (v, wd, k) letters) as [l1|] eqn:Hw; simpl.
    + rewrite IH; [|by eapply write_letter_shape
                  |by intros v' wd' k' ?; apply (Hlen v'); right].
      split.
      * intros Hall v' wd' k' [[= -> -> ->]|?]%elem_of_cons;
          [|by apply (Hall v' wd' k')].
        apply Hhead. by eauto.
      * intros Hall v' wd' k' ?. apply (Hall v' wd' k'). by right.
    + split; [by intros [? [=]]|]. intros Hall. exfalso.
      assert (Hin : is_Some (@None Letters)); [|by destruct Hin].
      apply Hhead, (Hall v wd k). by left.
Qed.

(** What a cell holds after a run of writes: what it held before, or the
    character of one of the writes to that cell. *)
Lemma writes_get ws letters letters' i j :
  for_each_opt ws write_letter letters = Some letters' →
  letters_get letters' i j = letters_get letters i j ∨
  ∃ v wd k c, (v, wd, k) ∈ ws ∧ String.get k wd = Some c ∧
              cell_of v k = (i, j) ∧ letters_get letters' i j = Some (Some c).
Proof.
  revert letters. induction ws as [|[[v wd] k] ws IH]; intros letters.
  - intros [= <-]. by left.
  - rewrite for_each_opt_cons.
    destruct (write_letter (v, wd, k) letters) as [l1|] eqn:Hw; simpl; [|done].
    intros Hrest. apply write_letter_get in Hw as (c & Hc & Hget).
    destruct (IH _ Hrest) as [Heq|(v' & wd' & k' & c' & Hin & Hc' & Hcell & Hfinal)].
    + rewrite Heq, Hget. case_decide as Hcell; [|by left].
      right. exists v, wd, k, c. split_and!; [by left|done|done|done].
    + right. exists v', wd', k', c'. split_and!; [by right|done..].
Qed.

(** A cell that was written to holds the character of a write to it. *)
Lemma writes_written ws letters letters' v wd k :
  for_each_opt ws write_letter letters = Some letters' →
  (v, wd, k) ∈ ws →
  ∃ v' wd' k' c', (v', wd', k') ∈ ws ∧ String.get k' wd' = Some c' ∧
    cell_of v' k' = cell_of v k ∧
    letters_get letters' (cell_of v k).1 (cell_of v k).2 = Some (Some c').
Proof.
  revert letters. induction ws as [|[[v0 wd0] k0] ws IH]; intros letters.
  - by intros _ ?%elem_of_nil.
  - rewrite for_each_opt_cons.
    destruct (write_letter (v0, wd0, k0) letters) as [l1|] eqn:Hw; simpl; [|done].
    intros Hrest [[= -> -> ->]|Hin]%elem_of_cons.
    + apply write_letter_get in Hw as (c & Hc & Hget).
      destruct (writes_get ws l1 letters' (cell_of v0 k0).1 (cell_of v0 k0).2 Hrest)
        as [Heq|(v' & wd' & k' & c' & Hin & Hc' & Hcell & Hfinal)].
      * exists v0, wd0, k0, c. split_and!; [by left|done|done|].
        rewrite Hget in Heq.
        rewrite decide_True in Heq by (by destruct (cell_of v0 k0)). exact Heq.
      * exists v', wd', k', c'. split_and!; [by right|done| |done].
        rewrite Hcell. by destruct (cell_of v0 k0).
    + destruct (IH _ Hrest Hin) as (v' & wd' & k' & c' & ? & ? & ? & ?).
      exists v', wd', k', c'. split_and!; [by right|done..].
Qed.
End letter_writes.

(** X16: bounds and shape of [letter_grid].  [letter_grid] returns exactly
    when every character of every word of the assignment falls on a cell
    inside the [height] by [width] grid, and raises [IndexError] otherwise;
    what it returns has [height] rows of [width] cells. *)
Theorem letter_grid_bounds (height width : nat) (assignment : Assignment) :
  (is_Some (letter_grid height width assignment) ↔
   fits_grid height width assignment) ∧
  (∀ letters, letter_grid height width assignment = Some letters →
     has_shape height width letters).
Proof.
  rewrite letter_grid_flat. split.
  - rewrite (writes_is_Some height width); [|apply blank_letters_shape|].
    + unfold fits_grid. split.
      * intros Hall v wd k Hin Hk. apply (Hall v wd k).
        by apply elem_of_letter_writes.
      * intros Hall v wd k [? ?]%elem_of_letter_writes. by apply (Hall v wd k).
    + by intros v wd k [_ ?]%elem_of_letter_writes.
  - intros letters. apply writes_shape, blank_letters_shape.
Qed.

Lemma letter_grid_bounds_witness :
  has_shape 3 3 [[Some "C"; Some "A"; Some "R"];
                 [None; Some "R"; None];
                 [None; Some "T"; None]]%char ∧
  ¬ fits_grid 2 3 [(slot_B, "ART"); (slot_A, "CAR")].
Proof.
  split.
  - apply (proj2 (letter_grid_bounds 3 3 [(slot_B, "ART"); (slot_A, "CAR")])).
    reflexivity.
  - intros Hfits.
    apply (proj1 (letter_grid_bounds 2 3 [(slot_B, "ART"); (slot_A, "CAR")]))
      in Hfits as [letters Hgrid].
    discriminate Hgrid.
Defined.

(** X17: [letter_grid] shows the words.  When the words of the assignment
    agree wherever two are written to the same cell, the grid that
    [letter_grid] returns holds, at the cell of the [k]-th character of the
    word of each slot, that character. *)
Theorem letter_grid_shows_words
    (height width : nat) (assignment : Assignment) (letters : Letters) :
  cells_agree assignment →
  letter_grid height width assignment = Some letters →
  ∀ v wd k c, (v, wd) ∈ assignment → String.get k wd = Some c →
    letters_get letters (cell_of v k).1 (cell_of v k).2 = Some (Some c).
Proof.
  rewrite letter_grid_flat. intros Hagree Hgrid v wd k c Hin Hc.
  assert (Hk : k < len_str wd).
  { eapply str_index_Ret_lt. unfold str_index. by rewrite Hc. }
  destruct (writes_written (letter_writes assignment) _ _ v wd k Hgrid)
    as (v' & wd' & k' & c' & [Hin' Hk']%elem_of_letter_writes & Hc' & Hcell & ->).
  { by apply elem_of_letter_writes. }
  do 2 f_equal. symmetry. by eapply (Hagree v wd k c v' wd' k' c').
Qed.

Lemma letter_grid_shows_words_witness :
  letters_get [[Some "C"; Some "A"; Some "R"];
               [None; Some "R"; None];
               [None; Some "T"; None]]%char
              (cell_of slot_B 2).1 (cell_of slot_B 2).2 = Some (Some "T"%char).
Proof.
  apply (letter_grid_shows_words 3 3 [(slot_B, "ART"); (slot_A, "CAR")])
    with (wd := "ART").
  - intros v wd k c v' wd' k' c' Hin Hin' Hc Hc' Hcell.
    assert (Hk : k < len_str wd).
    { apply (str_index_Ret_lt _ _ c). unfold str_index. by rewrite Hc. }
    assert (Hk' : k' < len_str wd').
    { apply (str_index_Ret_lt _ _ c'). unfold str_index. by rewrite Hc'. }
    apply elem_of_cons in Hin as [[= -> ->]|[[= -> ->]|[]%elem_of_nil]%elem_of_cons];
    apply elem_of_cons in Hin' as [[= -> ->]|[[= -> ->]|[]%elem_of_nil]%elem_of_cons];
    cbn in Hk, Hk';
    destruct k as [|[|[|k]]]; try lia; destruct k' as [|[|[|k']]]; try lia;
    vm_compute in Hcell, Hc, Hc'; congruence.
  - reflexivity.
  - by left.
  - reflexivity.
Defined.

(** X18: [letter_grid] leaves the other cells alone.  A cell of the grid
    that no character of the assignment falls on holds [None] in the grid
    that [letter_grid] returns. *)
Theorem letter_grid_leaves_blank
    (height width : nat) (assignment : Assignment) (letters : Letters) (i j : nat) :
  letter_grid height width assignment = Some letters →
  i < height → j < width →
  (∀ v wd k, (v, wd) ∈ assignment → k < len_str wd → cell_of v k ≠ (i, j)) →
  letters_get letters i j = Some None.
Proof.
  rewrite letter_grid_flat. intros Hgrid Hi Hj Hfree.
  destruct (writes_get _ _ _ i j Hgrid)
    as [->|(v & wd & k & c & [Hin Hk]%elem_of_letter_writes & _ & Hcell & _)].
  - by apply letters_get_blank.
  - by destruct (Hfree v wd k).
Qed.

Lemma letter_grid_leaves_blank_witness :
  letters_get [[Some "C"; Some "A"; Some "R"];
               [None; Some "R"; None];
               [None; Some "T"; None]]%char 1 0 = Some None.
Proof.
  apply (letter_grid_leaves_blank 3 3 [(slot_B, "ART"); (slot_A, "CAR")]).
  - reflexivity.
  - lia.
  - lia.
  - intros v wd k Hin Hk Hcell.
    apply elem_of_cons in Hin as [[= -> ->]|[[= -> ->]|[]%elem_of_nil]%elem_of_cons];
      vm_compute in Hcell; injection Hcell as ? ?; lia.
Defined.

(** ** [assignment_complete] *)

(** X19: [assignment_complete] counts.  It compares the number of slots
    with the number of keys of the assignment.  For a puzzle with distinct
    slots and an assignment to slots of the puzzle, the count decides
    whether every slot is assigned: if so, the answer is that of
    [consistent]; if not, the answer is [False] and [consistent] is not
    called. *)
Theorem assignment_complete_counts (crossword : Crossword) (assignment : Assignment) :
  NoDup (variables crossword) →
  NoDup (keys assignment) →
  keys assignment ⊆ variables crossword →
  (variables crossword ⊆ keys assignment →
   assignment_complete crossword assignment = consistent crossword assignment) ∧
  (¬ variables crossword ⊆ keys assignment →
   assignment_complete crossword assignment = Ret false).
Proof.
  intros Hvars Hkeys Hsub. unfold assignment_complete.
  pose proof (NoDup_submseteq _ _ Hkeys (λ x, Hsub x)) as Hle.
  split.
  - intros Hall. rewrite decide_True; [done|].
    pose proof (NoDup_submseteq _ _ Hvars (λ x, Hall x)) as Hge.
    apply submseteq_length in Hle, Hge. lia.
  - intros Hmissing. rewrite decide_False; [done|]. intros Hlen.
    apply Hmissing. intros x Hx.
    apply submseteq_length_Permutation in Hle; [|lia].
    by rewrite Hle.
Qed.

Lemma assignment_complete_counts_witness :
  assignment_complete two_slots [(slot_A, "CAT")] = Ret false.
Proof.
  apply (assignment_complete_counts two_slots [(slot_A, "CAT")]).
  - by apply (bool_decide_unpack _).
  - by apply (bool_decide_unpack _).
  - intros x [->|[]%elem_of_nil]%elem_of_cons. vm_compute. by left.
  - intros Hall. assert (Hin : slot_B ∈ keys [(slot_A, "CAT")]).
    { apply Hall. vm_compute. by right; left. }
    vm_compute in Hin. apply elem_of_cons in Hin as [[=]|[]%elem_of_nil].
Defined.
